(** * seneca-web-adapter-connect: a shallow embedding and its properties

    The adapter is one JavaScript function, [connect], that registers a
    handler per route on a connect-style host server, plus the helper
    [composeMiddleware].  Handlers are continuation-passing callables
    [(req, res, next)].  They are embedded as Rocq functions over an explicit
    world: the world holds the mutable request objects and the trace of what
    was written to the responses. *)

From Stdlib Require Import ZArith List Bool FunctionalExtensionality.
From stdpp Require Import gmap strings list pretty.

Local Open Scope Z_scope.
Local Open Scope string_scope.

(** ** JavaScript values *)

Module JS.

(** The numbers of the model: the integers below [10^21] in absolute value,
    which are the integers that JavaScript prints as plain decimal digits. *)
Record integer : Type := mk_integer {
  int_val : Z;
  int_small : (Z.abs int_val <? 10 ^ 21)%Z = true
}.

(** [int z], for a literal [z] in range: the bound is checked by
    computation. *)
Abbreviation int z := (mk_integer z eq_refl).

(** The values the adapter inspects.  Functions are kept apart (see
    [MwEntry] below): the adapter only ever asks whether a value is one.
    An [object] is a plain object, given by its own properties, whose values
    are again such values (so never functions); an [error] is an error object
    with the given [name] and [message] and the inherited [toString]. *)
Inductive value : Type :=
| undefined
| null
| boolean (b : bool)
| number (n : integer)
| str (s : string)
| object (fields : props)
| error (name message : string)
with props : Type :=
| pnil
| pcons (key : string) (v : value) (rest : props).

(** [if (v)]: ToBoolean. *)
Definition truthy (v : value) : bool :=
  match v with
  | undefined | null => false
  | boolean b => b
  | number n => negb (int_val n =? 0)%Z
  | str s => negb (String.eqb s "")
  | object _ | error _ _ => true
  end.

(** [a || b] *)
Definition logical_or (a b : value) : value := if truthy a then a else b.

(** [new Error(message)] *)
Definition Error (message : string) : value := error "Error" message.

(** What a call evaluates to: a value, or an exception that unwinds. *)
Inductive result (A : Type) : Type :=
| Ok (a : A)
| Throw (exn : value).
Arguments Ok {A} a.
Arguments Throw {A} exn.

(** Whether the object has an own property [key]. *)
Fixpoint has_own (key : string) (fields : props) : bool :=
  match fields with
  | pnil => false
  | pcons k _ rest => String.eqb k key || has_own key rest
  end.

(** [Error.prototype.toString]: an empty name gives the message, an empty
    message the name. *)
Definition error_to_string (name message : string) : string :=
  if String.eqb name "" then message
  else if String.eqb message "" then name
  else name +:+ ": " +:+ message.

(** [`${v}`]: ToString.  A plain object goes through [toString] and then
    [valueOf].  An own property [toString] hides the inherited method and,
    being no function, is skipped; [valueOf], own or inherited, yields no
    primitive; so the conversion throws a [TypeError].  Without an own
    [toString] the inherited one answers. *)
Definition to_string (v : value) : result string :=
  match v with
  | undefined => Ok "undefined"
  | null => Ok "null"
  | boolean true => Ok "true"
  | boolean false => Ok "false"
  | number n => Ok (pretty (int_val n))
  | str s => Ok s
  | object fields =>
      if has_own "toString" fields
      then Throw (error "TypeError" "Cannot convert object to primitive value")
      else Ok "[object Object]"
  | error name message => Ok (error_to_string name message)
  end.

(** [xs.map(f)] where [f] may throw: elements are visited in order and the
    first exception aborts the map. *)
Fixpoint array_map {A B : Type} (f : A -> result B) (xs : list A) : result (list B) :=
  match xs with
  | [] => Ok []
  | x :: xs' =>
      match f x with
      | Throw e => Throw e
      | Ok y =>
          match array_map f xs' with
          | Throw e => Throw e
          | Ok ys => Ok (y :: ys)
          end
      end
  end.

(** [xs.indexOf(x)] on an array of strings: the first index holding [x],
    or -1. *)
Fixpoint indexOf (xs : list string) (x : string) : Z :=
  match xs with
  | [] => -1
  | y :: xs' =>
      if String.eqb y x then 0
      else let i := indexOf xs' x in if (i =? -1)%Z then -1 else i + 1
  end.

End JS.

Import JS.

(** ** The world of one process: requests, responses, continuations *)

(** Request and response objects are passed by reference. *)
Definition ReqRef := nat.
Definition ResRef := nat.

Module Request.
(** The fields of an incoming request the adapter reads.  [body] is
    [undefined] until some middleware attaches one. *)
Record t : Type := mk {
  method : string;
  body : value;
  originalUrl : string
}.
End Request.

(** What can be observed of a run.  The adapter itself only ever causes
    [EWriteHead] and [EEnd]: its calls of [writeHead] and [end] on a
    response.  The remaining events are for environments that record what
    they are asked: a host continuation that notes being invoked, a body
    reader and an actor system that note each call. *)
Inductive Event : Type :=
| EWriteHead (res : ResRef) (status : Z) (headers : list (string * string))
| EEnd (res : ResRef) (data : value)
| ENext (err : value)
| EReadBody (req : ReqRef)
| EAct (pattern : string) (req : ReqRef) (res : ResRef) (body query : value).

Record World : Type := mkWorld {
  heap : ReqRef -> Request.t;
  trace : list Event
}.

(** A statement executed for its effect. *)
Definition Cmd := World -> World.

Definition log (evs : list Event) : Cmd :=
  fun w => {| heap := heap w; trace := (trace w ++ evs)%list |}.

(** [res.writeHead(status, headers)] and [res.end(data)] *)
Definition writeHead (res : ResRef) (status : Z) (headers : list (string * string)) : Cmd :=
  log [EWriteHead res status headers].
Definition end_ (res : ResRef) (data : value) : Cmd :=
  log [EEnd res data].

(** [next(err)]: a continuation accepting an optional error. *)
Definition Next := value -> Cmd.

(** A middleware callable, [(req, res, next) => ...]. *)
Definition Callable := ReqRef -> ResRef -> Next -> Cmd.

(** ** composeMiddleware (lines 70-79) *)

(** The reducer: [(previous, current) => (req, res, next) => ...]. *)
Definition compose_step (previous current : Callable) : Callable :=
  fun req res next =>
    previous req res (fun err =>
      if truthy err then next err
      else current req res next).

(** [_middleware.reduce(reducer)] without an initial value: the first element
    seeds the accumulator, and an empty array is a [TypeError]. *)
Definition composeMiddleware (_middleware : list Callable) : result Callable :=
  match _middleware with
  | [] => Throw (error "TypeError" "Reduce of empty array with no initial value")
  | first :: rest => Ok (fold_left compose_step rest first)
  end.

(** ** Routes, options and the dispatch payload *)

(** An entry of a route's [middleware] array, or a property of the named
    mapping [options.middleware]: a function, or any other value. *)
Inductive MwEntry : Type :=
| MwFun (f : Callable)
| MwVal (v : value).

(** [`${e}`].  A function renders as its source text, which the model does
    not keep; the adapter interpolates an entry only after [_.isFunction]
    has failed on what it resolved to, see [resolve_throw_inv]. *)
Definition template (e : MwEntry) : result string :=
  match e with
  | MwFun _ => Ok "[Function]"
  | MwVal v => to_string v
  end.

Module Route.
(** A route descriptor.  [middleware] may be absent; [autoreply] is a
    boolean flag. *)
Record t : Type := mk {
  path : string;
  methods : list string;
  pattern : string;
  middleware : option (list MwEntry);
  autoreply : bool
}.
End Route.

Module Options.
(** The adapter-wide options.  [middleware] is the named-middleware mapping,
    an object: [middleware !! key] is what the property read
    [middleware[key]] yields, [None] standing for [undefined].  [parseBody]
    is a boolean flag. *)
Record t : Type := mk {
  middleware : gmap string MwEntry;
  parseBody : bool
}.
End Options.

Module Args.
Record t : Type := mk {
  body : value;
  route : Route.t;
  query : value
}.
End Args.

Module Payload.
(** The message handed to [seneca.act]; [request_] and [response_] are the
    properties [request$] and [response$]. *)
Record t : Type := mk {
  request_ : ReqRef;
  response_ : ResRef;
  args : Args.t
}.
End Payload.

(** A node callback [(err, result) => ...]. *)
Definition Callback := value -> value -> Cmd.

(** [middleware[key]] *)
Definition get (middleware : gmap string MwEntry) (key : string) : MwEntry :=
  match middleware !! key with
  | Some e => e
  | None => MwVal undefined
  end.

(** The arrow passed to [.map] at lines 20-26.  The first match is the
    [_.isString] test, the second the [_.isFunction] test.  The template
    literal is evaluated before [new Error]: when the conversion of the entry
    throws, that exception is the one that unwinds. *)
Definition resolve (middleware : gmap string MwEntry) (_middleware : MwEntry) : result Callable :=
  let ret :=
    match _middleware with
    | MwVal (str key) => get middleware key
    | _ => _middleware
    end in
  match ret with
  | MwFun f => Ok f
  | MwVal _ =>
      match template _middleware with
      | Ok text => Throw (Error ("expected valid middleware, got " +:+ text))
      | Throw exn => Throw exn
      end
  end.

(** The host server: its stack of [(path, handler)] layers.  [use] appends. *)
Definition Host := list (string * Callable).

Definition use (context : Host) (path : string) (handler : Callable) : Host :=
  (context ++ [(path, handler)])%list.

Module Summary.
Record t : Type := mk { routes : list Route.t }.
End Summary.

(** What one call of [connect] did: the host server afterwards, the calls
    made to [done] (an error and, on success, the summary), and the exception
    that escaped, if any. *)
Record Outcome : Type := mkOutcome {
  host : option Host;
  done_calls : list (value * option Summary.t);
  thrown : option value
}.

Section Adapter.

(** The collaborators: [ReadBody] (./read-body), [seneca.act], the library
    calls [URL.parse(_).query], [QueryString.parse] and [JSON.stringify]. *)
Variable ReadBody : ReqRef -> Callback -> Cmd.
Variable act : string -> Payload.t -> Callback -> Cmd.
Variable URL_parse_query : string -> value.
Variable QueryString_parse : value -> value.
Variable JSON_stringify : value -> value.

(** The callback given to [seneca.act] (lines 50-58). *)
Definition act_callback (route : Route.t) (reply : ResRef) (next : Next) : Callback :=
  fun err response w =>
    if truthy err then next err w
    else if Route.autoreply route then
      end_ reply (JSON_stringify response)
        (writeHead reply 200 [("Content-Type", "application/json")] w)
    else w.

(** [finish] (lines 36-59). *)
Definition finish (route : Route.t) (request : ReqRef) (reply : ResRef) (next : Next)
  : Callback :=
  fun err body w =>
    if truthy err then next err w
    else
      let payload :=
        {| Payload.request_ := request;
           Payload.response_ := reply;
           Payload.args :=
             {| Args.body := body;
                Args.route := route;
                Args.query :=
                  QueryString_parse
                    (URL_parse_query (Request.originalUrl (heap w request))) |} |} in
      act (Route.pattern route) payload (act_callback route reply next) w.

(** The terminal callable of every chain (lines 28-60). *)
Definition request_bridge (options : Options.t) (route : Route.t) : Callable :=
  fun request reply next w =>
    if negb (indexOf (Route.methods route) (Request.method (heap w request)) =? -1)%Z then
      if Options.parseBody options then
        ReadBody request (finish route request reply next) w
      else
        finish route request reply next
          null (logical_or (Request.body (heap w request)) (object pnil)) w
    else w.

(** The handler built for one route: the argument of [context.use] at
    line 28.  Resolving the route's middleware may throw. *)
Definition route_handler (options : Options.t) (route : Route.t) : result Callable :=
  match array_map (resolve (Options.middleware options))
                  (default [] (Route.middleware route)) with
  | Throw e => Throw e
  | Ok routeMiddleware =>
      composeMiddleware (routeMiddleware ++ [request_bridge options route])%list
  end.

(** [_.each(routes, ...)] (lines 17-61), threading the host.  An exception
    thrown for one route ends the loop; what was registered before stays. *)
Fixpoint each_route (options : Options.t) (routes : list Route.t) (context : Host)
  : Host * option value :=
  match routes with
  | [] => (context, None)
  | route :: rest =>
      match route_handler options route with
      | Throw e => (context, Some e)
      | Ok handler => each_route options rest (use context (Route.path route) handler)
      end
  end.

(** [connect] (lines 8-63). *)
Definition connect (options : Options.t) (context : option Host) (auth : value)
    (routes : list Route.t) : Outcome :=
  match context with
  | None =>
      {| host := None;
         done_calls := [(Error "no context provided", None)];
         thrown := None |}
  | Some ctx =>
      match each_route options routes ctx with
      | (ctx', Some e) =>
          {| host := Some ctx'; done_calls := []; thrown := Some e |}
      | (ctx', None) =>
          {| host := Some ctx';
             done_calls := [(null, Some {| Summary.routes := routes |})];
             thrown := None |}
      end
  end.

End Adapter.

(** ** Recording environments

    Collaborators that note each call in the trace and then call back with
    scripted replies.  A reply is an [(err, result)] pair; a script may hold
    none (the collaborator never answers), one, or several. *)

Definition Replies := list (value * value).

Definition call_back (cb : Callback) (replies : Replies) : Cmd :=
  fun w => fold_left (fun w' r => cb (fst r) (snd r) w') replies w.

(** Modelled from the spec: [./read-body] is required by the adapter but is
    not among the sources.  Its interface is [(request, callback)], yielding
    [(error, parsedBody)] to the callback; the script says with what. *)
Definition recording_ReadBody (script : ReqRef -> Replies) : ReqRef -> Callback -> Cmd :=
  fun req cb w => call_back cb (script req) (log [EReadBody req] w).

(** [seneca.act(pattern, payload, callback)], yielding [(error, result)] to
    the callback; the script says with what. *)
Definition recording_act (script : string -> Payload.t -> Replies)
  : string -> Payload.t -> Callback -> Cmd :=
  fun pattern payload cb w =>
    call_back cb (script pattern payload)
      (log [EAct pattern (Payload.request_ payload) (Payload.response_ payload)
              (Args.body (Payload.args payload)) (Args.query (Payload.args payload))] w).

(** The host's continuation, noting the argument it is invoked with. *)
Definition recording_next : Next := fun err => log [ENext err].

(** ** The chain behind a composed callable *)

(** [continuation rest req res next] is the continuation handed to a callable
    that is followed by the callables [rest], in a chain that was itself
    invoked with [(req, res, next)].  It unfolds the nest of arrows that
    [reduce] builds. *)
Fixpoint continuation (rest : list Callable) (req : ReqRef) (res : ResRef) (next : Next)
  : Next :=
  match rest with
  | [] => next
  | current :: rest' =>
      fun err =>
        if truthy err then continuation rest' req res next err
        else current req res (continuation rest' req res next)
  end.

Lemma fold_compose_step (rest : list Callable) :
  forall (previous : Callable) req res next,
    fold_left compose_step rest previous req res next
    = previous req res (continuation rest req res next).
Proof.
  induction rest as [|current rest' IH]; intros previous req res next.
  - reflexivity.
  - cbn [fold_left]. rewrite IH. reflexivity.
Qed.

Lemma continuation_error (rest : list Callable) req res next e :
  truthy e = true -> continuation rest req res next e = next e.
Proof.
  intros He. induction rest as [|current rest' IH]; cbn [continuation].
  - reflexivity.
  - rewrite He. exact IH.
Qed.

Lemma continuation_proceed (current : Callable) (rest : list Callable) req res next v :
  truthy v = false ->
  continuation (current :: rest) req res next v
  = current req res (continuation rest req res next).
Proof. intros Hv. cbn [continuation]. rewrite Hv. reflexivity. Qed.

(** C1. For a non-empty list [first :: rest] of callables, the callable that
    [composeMiddleware] returns runs the callables in list order, and only
    along continuations: invoked with [(req, res, next)] it runs [first],
    handing it a continuation [k 0]; the continuation [k i] handed to
    callable [i], invoked without an error (a falsy argument), runs callable
    [i + 1] and hands it [k (i + 1)]; invoked with an error (a truthy
    argument) it is exactly the composed callable's own [next] applied to
    that error, so no later callable runs; and the last callable is handed
    [next] itself.  This holds for arbitrary callables, however they use
    their continuation. *)
Theorem composeMiddleware_chain (first : Callable) (rest : list Callable) :
  exists composed : Callable,
    composeMiddleware (first :: rest) = Ok composed /\
    forall req res next, exists k : nat -> Next,
      composed req res next = first req res (k 0%nat)
      /\ (forall i current v,
            rest !! i = Some current -> truthy v = false ->
            k i v = current req res (k (S i)))
      /\ (forall i e, truthy e = true -> k i e = next e)
      /\ k (length rest) = next.
Proof.
  exists (fold_left compose_step rest first). split; [reflexivity|].
  intros req res next.
  exists (fun i => continuation (drop i rest) req res next).
  cbv beta. split; [|split; [|split]].
  - rewrite drop_0. apply fold_compose_step.
  - intros i current v Hi Hv.
    rewrite (drop_S rest current i Hi). apply continuation_proceed, Hv.
  - intros i e He. apply continuation_error, He.
  - rewrite drop_all. reflexivity.
Qed.

(** ** The request bridge *)

Lemma indexOf_lower_bound (xs : list string) (x : string) : (-1 <= indexOf xs x)%Z.
Proof.
  induction xs as [|y xs' IH]; cbn [indexOf]; [lia|].
  destruct (String.eqb y x); [lia|].
  destruct (Z.eqb_spec (indexOf xs' x) (-1)); lia.
Qed.

Lemma indexOf_absent (xs : list string) (x : string) :
  indexOf xs x = (-1)%Z <-> x ∉ xs.
Proof.
  induction xs as [|y xs' IH]; cbn [indexOf].
  - split; [intros _; apply not_elem_of_nil | reflexivity].
  - rewrite not_elem_of_cons. destruct (String.eqb_spec y x) as [->|Hne].
    + split; [discriminate | intros [Hx _]; congruence].
    + destruct (Z.eqb_spec (indexOf xs' x) (-1)) as [Hi|Hi].
      * split; [intros _; split; [congruence | apply IH, Hi] | reflexivity].
      * split.
        -- intros H. pose proof (indexOf_lower_bound xs' x). lia.
        -- intros [_ Hx]. exfalso. apply Hi, IH, Hx.
Qed.

Section Bridge.

Variable ReadBody : ReqRef -> Callback -> Cmd.
Variable act : string -> Payload.t -> Callback -> Cmd.
Variable URL_parse_query : string -> value.
Variable QueryString_parse : value -> value.
Variable JSON_stringify : value -> value.

Local Abbreviation act_callback := (act_callback JSON_stringify).
Local Abbreviation finish := (finish act URL_parse_query QueryString_parse JSON_stringify).
Local Abbreviation request_bridge :=
  (request_bridge ReadBody act URL_parse_query QueryString_parse JSON_stringify).

(** C5. When the request's method is not among the route's methods, the
    bridge leaves the world as it found it, whatever the collaborators would
    do when called: no body is read, nothing is dispatched, nothing is
    written, and the continuation is not invoked. *)
Theorem method_filter_drops (options : Options.t) (route : Route.t)
    (request : ReqRef) (reply : ResRef) (next : Next) (w : World) :
  Request.method (heap w request) ∉ Route.methods route ->
  request_bridge options route request reply next w = w.
Proof.
  intros Hm. apply indexOf_absent in Hm. unfold request_bridge.
  rewrite Hm. reflexivity.
Qed.

(** C8. On a route with [autoreply] unset, when the dispatch callback is
    called without an error, the adapter does nothing: the world, and with
    it everything written to the response, is unchanged. *)
Theorem no_autoreply_no_response (route : Route.t) (reply : ResRef) (next : Next)
    (err response : value) (w : World) :
  Route.autoreply route = false ->
  truthy err = false ->
  act_callback route reply next err response w = w.
Proof.
  intros Hauto Herr. unfold act_callback. rewrite Herr, Hauto. reflexivity.
Qed.

(** C6, as the code has it. With [parseBody] disabled and a matching method,
    the bridge dispatches the route's pattern with a payload whose
    [args.body] is the body attached to the request when that body is
    truthy, and an empty mapping when none is attached or the attached body
    is falsy ([null], [false], [0], the empty string): the code takes
    [request.body || {}]. *)
Theorem body_without_parser (options : Options.t) (route : Route.t)
    (request : ReqRef) (reply : ResRef) (next : Next) (w : World) :
  Options.parseBody options = false ->
  Request.method (heap w request) ∈ Route.methods route ->
  exists body : value,
    request_bridge options route request reply next w
    = act (Route.pattern route)
        {| Payload.request_ := request;
           Payload.response_ := reply;
           Payload.args :=
             {| Args.body := body;
                Args.route := route;
                Args.query :=
                  QueryString_parse
                    (URL_parse_query (Request.originalUrl (heap w request))) |} |}
        (act_callback route reply next) w
    /\ (Request.body (heap w request) = undefined -> body = object pnil)
    /\ (truthy (Request.body (heap w request)) = true ->
        body = Request.body (heap w request))
    /\ (truthy (Request.body (heap w request)) = false -> body = object pnil).
Proof.
  intros Hparse Hm.
  exists (logical_or (Request.body (heap w request)) (object pnil)).
  split; [|split; [|split]].
  - unfold request_bridge. rewrite Hparse.
    destruct (Z.eqb_spec (indexOf (Route.methods route)
                            (Request.method (heap w request))) (-1)) as [Hi|Hi].
    + apply indexOf_absent in Hi. contradiction.
    + reflexivity.
  - intros ->. reflexivity.
  - intros Ht. unfold logical_or. rewrite Ht. reflexivity.
  - intros Ht. unfold logical_or. rewrite Ht. reflexivity.
Qed.

End Bridge.

(** ** Whole runs of the bridge in a recording environment *)

(** [extends P w w']: [w'] is [w] with events appended that all satisfy [P],
    and the same request objects. *)
Definition extends (P : Event -> Prop) (w w' : World) : Prop :=
  heap w' = heap w /\ exists evs, trace w' = (trace w ++ evs)%list /\ Forall P evs.

Lemma extends_refl P w : extends P w w.
Proof. split; [reflexivity|]. exists []. rewrite app_nil_r. split; [reflexivity|constructor]. Qed.

Lemma extends_trans P w1 w2 w3 : extends P w1 w2 -> extends P w2 w3 -> extends P w1 w3.
Proof.
  intros [Hh1 (evs1 & Ht1 & HP1)] [Hh2 (evs2 & Ht2 & HP2)]. split; [congruence|].
  exists (evs1 ++ evs2)%list. split.
  - rewrite Ht2, Ht1, app_assoc. reflexivity.
  - apply Forall_app. split; assumption.
Qed.

Lemma extends_log (P : Event -> Prop) evs w : Forall P evs -> extends P w (log evs w).
Proof. intros HP. split; [reflexivity|]. exists evs. split; [reflexivity|exact HP]. Qed.

Lemma extends_mono (P Q : Event -> Prop) w w' :
  (forall ev, P ev -> Q ev) -> extends P w w' -> extends Q w w'.
Proof.
  intros HPQ [Hh (evs & Ht & HP)]. split; [exact Hh|]. exists evs. split; [exact Ht|].
  eapply Forall_impl; eassumption.
Qed.

Lemma extends_call_back (P : Event -> Prop) (cb : Callback) (replies : Replies) :
  (forall r w, r ∈ replies -> extends P w (cb (fst r) (snd r) w)) ->
  forall w, extends P w (call_back cb replies w).
Proof.
  unfold call_back. induction replies as [|r replies' IH]; intros Hcb w; cbn [fold_left].
  - apply extends_refl.
  - eapply extends_trans.
    + apply Hcb. left.
    + apply IH. intros r' w' Hr'. apply Hcb. right. exact Hr'.
Qed.

Lemma extends_then_call_back (P : Event -> Prop) (cb : Callback) (replies : Replies) w w0 :
  extends P w w0 ->
  (forall r w', r ∈ replies -> extends P w' (cb (fst r) (snd r) w')) ->
  extends P w (call_back cb replies w0).
Proof.
  intros Hw Hcb. eapply extends_trans; [exact Hw|]. apply extends_call_back, Hcb.
Qed.

(** An event that is either not an invocation of the continuation, or an
    invocation with an error (truthy) that satisfies [from]. *)
Definition next_carries (from : value -> Prop) (ev : Event) : Prop :=
  match ev with
  | ENext e => truthy e = true /\ from e
  | _ => True
  end.

(** The errors the collaborators report for one request on one route. *)
Definition reported (body_script : ReqRef -> Replies)
    (act_script : string -> Payload.t -> Replies)
    (route : Route.t) (request : ReqRef) (e : value) : Prop :=
  e ∈ (body_script request).*1
  \/ exists payload, e ∈ (act_script (Route.pattern route) payload).*1.

(** Splits [Forall P [ev1; ...; evn]] into one goal per event and closes
    those that hold by computation. *)
Ltac each_event :=
  repeat first [apply Forall_nil_2 | apply Forall_cons_2; [try exact I|]].

Section Runs.

Variable body_script : ReqRef -> Replies.
Variable act_script : string -> Payload.t -> Replies.
Variable URL_parse_query : string -> value.
Variable QueryString_parse : value -> value.
Variable JSON_stringify : value -> value.

Local Abbreviation act_callback := (act_callback JSON_stringify).
Local Abbreviation finish :=
  (finish (recording_act act_script) URL_parse_query QueryString_parse JSON_stringify).
Local Abbreviation request_bridge :=
  (request_bridge (recording_ReadBody body_script) (recording_act act_script)
     URL_parse_query QueryString_parse JSON_stringify).

Lemma act_callback_run (route : Route.t) (reply : ResRef) (err response : value) (w : World) :
  extends (next_carries (eq err)) w (act_callback route reply recording_next err response w).
Proof.
  unfold act_callback. destruct (truthy err) eqn:Herr.
  - apply extends_log. each_event. split; [exact Herr|reflexivity].
  - destruct (Route.autoreply route).
    + eapply extends_trans; apply extends_log; each_event.
    + apply extends_refl.
Qed.

Lemma finish_run (route : Route.t) (request : ReqRef) (reply : ResRef)
    (err body : value) (w : World) :
  extends (next_carries (fun e => e = err
             \/ exists payload, e ∈ (act_script (Route.pattern route) payload).*1))
    w (finish route request reply recording_next err body w).
Proof.
  unfold finish. destruct (truthy err) eqn:Herr.
  - apply extends_log. each_event. split; [exact Herr | left; reflexivity].
  - unfold recording_act. apply extends_then_call_back.
    + apply extends_log. each_event.
    + intros r w' Hr.
      eapply extends_mono; [|apply act_callback_run].
      intros [] Hev; try exact I. destruct Hev as [Ht <-]. split; [exact Ht|].
      right. eexists. apply list_elem_of_fmap. exists r. split; [reflexivity|exact Hr].
Qed.

Lemma request_bridge_run (options : Options.t) (route : Route.t)
    (request : ReqRef) (reply : ResRef) (w : World) :
  extends (next_carries (reported body_script act_script route request))
    w (request_bridge options route request reply recording_next w).
Proof.
  unfold request_bridge.
  destruct (negb _); [|apply extends_refl].
  destruct (Options.parseBody options).
  - unfold recording_ReadBody. apply extends_then_call_back.
    + apply extends_log. each_event.
    + intros r w' Hr.
      eapply extends_mono; [|apply finish_run].
      intros [] Hev; try exact I. destruct Hev as [Ht [->|Hact]]; (split; [exact Ht|]).
      * left. apply list_elem_of_fmap. exists r. split; [reflexivity|exact Hr].
      * right. exact Hact.
  - eapply extends_mono; [|apply finish_run].
    intros [] Hev; try exact I. destruct Hev as [Ht [->|Hact]].
    + discriminate Ht.
    + split; [exact Ht|]. right. exact Hact.
Qed.

(** C10. Run the bridge for any request on any route, with a body reader and
    an actor system that call back any number of times with any replies, and
    a continuation that notes each invocation.  Every invocation of the
    continuation made during the run carries an error (a truthy value) that
    one of the two collaborators reported; so when no reply carries an error
    the continuation is not invoked at all, with or without autoreply. *)
Theorem next_only_on_error (options : Options.t) (route : Route.t)
    (request : ReqRef) (reply : ResRef) (w : World) :
  exists evs : list Event,
    trace (request_bridge options route request reply recording_next w)
    = (trace w ++ evs)%list
    /\ (forall e, ENext e ∈ evs ->
          truthy e = true /\ reported body_script act_script route request e)
    /\ ((forall e, reported body_script act_script route request e -> truthy e = false) ->
        forall e, ENext e ∉ evs).
Proof.
  destruct (request_bridge_run options route request reply w) as [_ (evs & Ht & HP)].
  exists evs. split; [exact Ht|].
  assert (Hnext : forall e, ENext e ∈ evs ->
            truthy e = true /\ reported body_script act_script route request e).
  { intros e He. rewrite Forall_forall in HP. exact (HP (ENext e) He). }
  split; [exact Hnext|].
  intros Hok e He. destruct (Hnext e He) as [Ht' Hr].
  rewrite (Hok e Hr) in Ht'. discriminate.
Qed.

End Runs.

(** ** Registration *)

(** The entries the claims call valid: a callable, or a string that the
    named mapping resolves to a callable. *)
Definition valid_entry (middleware : gmap string MwEntry) (e : MwEntry) : bool :=
  match e with
  | MwFun _ => true
  | MwVal (str key) =>
      match middleware !! key with
      | Some (MwFun _) => true
      | _ => false
      end
  | MwVal _ => false
  end.

(** The entries of a route; an absent list counts as empty. *)
Definition entries (route : Route.t) : list MwEntry :=
  default [] (Route.middleware route).

Definition route_valid (options : Options.t) (route : Route.t) : bool :=
  forallb (valid_entry (Options.middleware options)) (entries route).

(** The exception thrown for an invalid entry [v]: the error naming it, or
    the exception of converting [v] to a string. *)
Definition invalid_middleware (v : value) : value :=
  match to_string v with
  | Ok text => Error ("expected valid middleware, got " +:+ text)
  | Throw exn => exn
  end.

Lemma resolve_valid middleware e :
  valid_entry middleware e = true -> exists f, resolve middleware e = Ok f.
Proof.
  destruct e as [f|v]; [intros _; exists f; reflexivity|].
  destruct v as [| |b|n|key|fields|name message]; try discriminate.
  unfold valid_entry, resolve, get.
  destruct (middleware !! key) as [[f|v']|]; try discriminate.
  intros _. exists f. reflexivity.
Qed.

Lemma resolve_invalid middleware e :
  valid_entry middleware e = false ->
  exists v, e = MwVal v /\ resolve middleware e = Throw (invalid_middleware v).
Proof.
  destruct e as [f|v]; [discriminate|]. intros Hv. exists v. split; [reflexivity|].
  assert (Hret : resolve middleware (MwVal v)
                 = match to_string v with
                   | Ok text => Throw (Error ("expected valid middleware, got " +:+ text))
                   | Throw exn => Throw exn
                   end).
  { destruct v as [| |b|n|key|fields|name message]; try reflexivity.
    revert Hv. unfold valid_entry, resolve, get.
    destruct (middleware !! key) as [[f|v']|]; try discriminate; reflexivity. }
  rewrite Hret. unfold invalid_middleware. destruct (to_string v); reflexivity.
Qed.

(** [resolve] interpolates an entry into its message only when the entry is
    not a function. *)
Lemma resolve_throw_inv middleware e exn :
  resolve middleware e = Throw exn -> exists v, e = MwVal v /\ exn = invalid_middleware v.
Proof.
  destruct (valid_entry middleware e) eqn:Hv.
  - destruct (resolve_valid _ _ Hv) as [f ->]. discriminate.
  - destruct (resolve_invalid _ _ Hv) as (v & -> & ->). intros [= <-]. eauto.
Qed.

Lemma array_map_resolve_valid middleware (es : list MwEntry) :
  forallb (valid_entry middleware) es = true ->
  exists fs, array_map (resolve middleware) es = Ok fs.
Proof.
  induction es as [|e es' IH]; cbn [forallb array_map]; [eauto|].
  intros [He Hes]%andb_true_iff.
  destruct (resolve_valid _ _ He) as [f ->]. destruct (IH Hes) as [fs ->]. eauto.
Qed.

(** The map stops at the first invalid entry, with the exception for it. *)
Lemma array_map_resolve_first_invalid middleware (es : list MwEntry) :
  forallb (valid_entry middleware) es = false ->
  exists before v after,
    es = (before ++ MwVal v :: after)%list
    /\ Forall (fun e => valid_entry middleware e = true) before
    /\ valid_entry middleware (MwVal v) = false
    /\ array_map (resolve middleware) es = Throw (invalid_middleware v).
Proof.
  induction es as [|e es' IH]; cbn [forallb array_map]; [discriminate|].
  destruct (valid_entry middleware e) eqn:He; cbn [andb].
  - intros Hes. destruct (resolve_valid _ _ He) as [f ->].
    destruct (IH Hes) as (before & v & after & -> & Hbefore & Hv & ->).
    exists (e :: before), v, after. split; [reflexivity|].
    split; [apply Forall_cons_2; assumption|]. split; [exact Hv|reflexivity].
  - intros _. destruct (resolve_invalid _ _ He) as (v & -> & ->).
    exists [], v, es'. split; [reflexivity|].
    split; [apply Forall_nil_2|]. split; [exact He|reflexivity].
Qed.

Lemma array_map_resolve_invalid middleware (es : list MwEntry) :
  forallb (valid_entry middleware) es = false ->
  exists v, MwVal v ∈ es /\ valid_entry middleware (MwVal v) = false
            /\ array_map (resolve middleware) es = Throw (invalid_middleware v).
Proof.
  intros Hes.
  destruct (array_map_resolve_first_invalid _ _ Hes) as (before & v & after & -> & _ & Hv & Hmap).
  exists v. split; [|split; assumption].
  apply elem_of_app. right. left.
Qed.

Lemma route_valid_false options (routes : list Route.t) :
  (exists route e, route ∈ routes /\ e ∈ entries route
                   /\ valid_entry (Options.middleware options) e = false) ->
  exists pre bad post,
    routes = (pre ++ bad :: post)%list
    /\ Forall (fun r => route_valid options r = true) pre
    /\ route_valid options bad = false.
Proof.
  intros (route & e & Hr & He & Hv).
  induction routes as [|r routes' IH]; [inversion Hr|].
  destruct (route_valid options r) eqn:Hvalid.
  - assert (Hr' : route ∈ routes').
    { apply elem_of_cons in Hr as [->|Hr]; [|exact Hr]. exfalso.
      unfold route_valid in Hvalid. rewrite forallb_forall in Hvalid.
      apply list_elem_of_In in He. rewrite (Hvalid e He) in Hv. discriminate. }
    destruct (IH Hr') as (pre & bad & post & -> & Hpre & Hbad).
    exists (r :: pre), bad, post. split; [reflexivity|].
    split; [constructor; assumption | exact Hbad].
  - exists [], r, routes'. split; [reflexivity|]. split; [constructor | exact Hvalid].
Qed.

Section Registration.

Variable ReadBody : ReqRef -> Callback -> Cmd.
Variable act : string -> Payload.t -> Callback -> Cmd.
Variable URL_parse_query : string -> value.
Variable QueryString_parse : value -> value.
Variable JSON_stringify : value -> value.

Local Abbreviation route_handler :=
  (route_handler ReadBody act URL_parse_query QueryString_parse JSON_stringify).
Local Abbreviation each_route :=
  (each_route ReadBody act URL_parse_query QueryString_parse JSON_stringify).
Local Abbreviation connect :=
  (connect ReadBody act URL_parse_query QueryString_parse JSON_stringify).

(** A layer of the host's stack is the registration of a route: it sits
    under the route's path and holds the handler built for that route. *)
Definition registered (options : Options.t) (route : Route.t)
    (layer : string * Callable) : Prop :=
  fst layer = Route.path route /\ route_handler options route = Ok (snd layer).

Lemma route_handler_valid options route :
  route_valid options route = true -> exists handler, route_handler options route = Ok handler.
Proof.
  intros Hv. unfold route_handler. unfold route_valid, entries in Hv.
  destruct (array_map_resolve_valid _ _ Hv) as [fs ->].
  destruct fs as [|f fs']; cbn [app composeMiddleware]; eauto.
Qed.

Lemma route_handler_invalid options route :
  route_valid options route = false ->
  exists v, MwVal v ∈ entries route
            /\ valid_entry (Options.middleware options) (MwVal v) = false
            /\ route_handler options route = Throw (invalid_middleware v).
Proof.
  intros Hv. unfold route_handler. unfold route_valid in Hv. unfold entries in *.
  destruct (array_map_resolve_invalid _ _ Hv) as (v & Hin & Hinv & ->). eauto.
Qed.

Lemma each_route_valid options (routes : list Route.t) :
  Forall (fun r => route_valid options r = true) routes ->
  forall context, exists layers,
    Forall2 (registered options) routes layers
    /\ each_route options routes context = ((context ++ layers)%list, None).
Proof.
  induction 1 as [|route rest Hroute _ IH]; intros context; cbn [each_route].
  - exists []. rewrite app_nil_r. split; [constructor|reflexivity].
  - destruct (route_handler_valid _ _ Hroute) as [handler Hh]. rewrite Hh.
    destruct (IH (use context (Route.path route) handler)) as (layers & Hl & ->).
    exists ((Route.path route, handler) :: layers). split.
    + constructor; [split; [reflexivity|exact Hh] | exact Hl].
    + unfold use. rewrite <- app_assoc. reflexivity.
Qed.

Lemma each_route_aborts options (pre : list Route.t) bad post exn :
  Forall (fun r => route_valid options r = true) pre ->
  route_handler options bad = Throw exn ->
  forall context, exists layers,
    Forall2 (registered options) pre layers
    /\ each_route options (pre ++ bad :: post) context = ((context ++ layers)%list, Some exn).
Proof.
  intros Hpre Hbad. induction Hpre as [|route rest Hroute _ IH]; intros context.
  - exists []. rewrite app_nil_r. cbn [app each_route]. rewrite Hbad.
    split; [constructor|reflexivity].
  - cbn [app each_route].
    destruct (route_handler_valid _ _ Hroute) as [handler Hh]. rewrite Hh.
    destruct (IH (use context (Route.path route) handler)) as (layers & Hl & ->).
    exists ((Route.path route, handler) :: layers). split.
    + constructor; [split; [reflexivity|exact Hh] | exact Hl].
    + unfold use. rewrite <- app_assoc. reflexivity.
Qed.



(** C7. Without a host-server context, [connect] calls [done] once, with
    [Error('no context provided')] and nothing else, throws nothing and
    registers nothing: there is no host in the outcome. *)
Theorem no_context_is_rejected (options : Options.t) (auth : value) (routes : list Route.t) :
  connect options None auth routes
  = {| host := None;
       done_calls := [(Error "no context provided", None)];
       thrown := None |}.
Proof. reflexivity. Qed.

(** C9. With a context, and routes whose middleware entries are all valid,
    [connect] appends one layer per route to the host's stack, in the order
    of the routes, each under its route's path and holding the handler built
    for that route; it then calls [done] exactly once, with no error ([null])
    and the summary holding the route list it was given; nothing is thrown. *)
Theorem routes_registered_in_order (options : Options.t) (context : Host) (auth : value)
    (routes : list Route.t) :
  (forall route e, route ∈ routes -> e ∈ entries route ->
                   valid_entry (Options.middleware options) e = true) ->
  exists layers,
    Forall2 (registered options) routes layers
    /\ connect options (Some context) auth routes
       = {| host := Some (context ++ layers)%list;
            done_calls := [(null, Some {| Summary.routes := routes |})];
            thrown := None |}.
Proof.
  intros Hvalid.
  assert (Hall : Forall (fun r => route_valid options r = true) routes).
  { apply Forall_forall. intros route Hr. unfold route_valid. apply forallb_forall.
    intros e He. apply (Hvalid route e Hr). apply list_elem_of_In, He. }
  destruct (each_route_valid options routes Hall context) as (layers & Hl & Heach).
  exists layers. split; [exact Hl|]. unfold connect. rewrite Heach. reflexivity.
Qed.

End Registration.

(** ** A concrete environment

    The routes and middleware of the repository's tests, run against the
    recording collaborators. *)

Module Fixture.

(** Stand-ins for the library calls: a URL without a query string, whose
    parsed query is the empty mapping, and a serializer that leaves the
    value as it is so that it can be read off the trace. *)
Definition no_query : string -> value := fun _ => null.
Definition parse_empty : value -> value := fun _ => object pnil.
Definition as_is : value -> value := fun v => v.

Definition json_header : list (string * string) :=
  [("Content-Type", "application/json")].

(** [{res: 'pong!'}], [{success: true}], [new Error('aw snap!')] *)
Definition pong : value := object (pcons "res" (str "pong!") pnil).
Definition success : value := object (pcons "success" (boolean true) pnil).
Definition aw_snap : value := Error "aw snap!".

(** [head] and [res], the named middleware of the tests. *)
Definition head : Callable :=
  fun req res next w => next undefined (writeHead res 200 json_header w).
Definition res : Callable :=
  fun req res next w => end_ res (as_is success) w.

Definition named : gmap string MwEntry :=
  <["head" := MwFun head]> (<["res" := MwFun res]> ∅).

Definition options (parseBody : bool) : Options.t :=
  {| Options.middleware := named; Options.parseBody := parseBody |}.

Definition route (name : string) (methods : list string)
    (middleware : option (list MwEntry)) (autoreply : bool) : Route.t :=
  {| Route.path := "/" +:+ name;
     Route.methods := methods;
     Route.pattern := "role:test,cmd:" +:+ name;
     Route.middleware := middleware;
     Route.autoreply := autoreply |}.

Definition ping : Route.t := route "ping" ["GET"] None true.
Definition boom : Route.t := route "boom" ["GET"] None true.
Definition echo : Route.t := route "echo" ["POST"] None true.
Definition quiet : Route.t := route "quiet" ["GET"] None false.
Definition piped : Route.t :=
  route "piped" ["GET"] (Some [MwVal (str "head"); MwVal (str "res")]) true.
Definition broken : Route.t :=
  route "broken" ["GET"] (Some [MwVal (str "total not valid")]) true.

(** The body reader yields an empty body; the actor system answers by
    pattern, and echoes the body on [cmd:echo]. *)
Definition bodies : ReqRef -> Replies := fun _ => [(null, object pnil)].
Definition actors : string -> Payload.t -> Replies :=
  fun pattern payload =>
    if String.eqb pattern "role:test,cmd:ping" then [(null, pong)]
    else if String.eqb pattern "role:test,cmd:boom" then [(aw_snap, undefined)]
    else if String.eqb pattern "role:test,cmd:echo"
         then [(null, Args.body (Payload.args payload))]
    else [(null, undefined)].

(** A world with the one request [(method, body, url)] and nothing written. *)
Definition world (method : string) (body : value) (url : string) : World :=
  {| heap := fun _ => {| Request.method := method;
                         Request.body := body;
                         Request.originalUrl := url |};
     trace := [] |}.

Definition bridge (parseBody : bool) (route : Route.t) : Callable :=
  request_bridge (recording_ReadBody bodies) (recording_act actors)
    no_query parse_empty as_is (options parseBody) route.

Definition setup (parseBody : bool) (context : option Host) (routes : list Route.t)
  : Outcome :=
  connect (recording_ReadBody bodies) (recording_act actors)
    no_query parse_empty as_is (options parseBody) context undefined routes.

(** The paths registered on the host, and what a request to the [n]-th layer
    leaves in the trace. *)
Definition paths (o : Outcome) : option (list string) :=
  (fun layers => layers.*1) <$> host o.

Definition serve (o : Outcome) (n : nat) (w : World) : option (list Event) :=
  match host o with
  | Some layers =>
      match layers !! n with
      | Some (_, handler) => Some (trace (handler 0%nat 0%nat recording_next w))
      | None => None
      end
  | None => None
  end.

End Fixture.

Import Fixture.

(** 'by default routes autoreply': GET /ping answers 200 with the reply. *)
Example ping_autoreplies :
  serve (setup true (Some []) [ping]) 0 (world "GET" undefined "/ping")
  = Some [EReadBody 0%nat;
          EAct "role:test,cmd:ping" 0%nat 0%nat (object pnil) (object pnil);
          EWriteHead 0%nat 200 json_header;
          EEnd 0%nat pong].
Proof. reflexivity. Qed.

(** 'can handle custom errors properly': the error reaches [next]. *)
Example boom_reaches_next :
  serve (setup true (Some []) [boom]) 0 (world "GET" undefined "/boom")
  = Some [EReadBody 0%nat;
          EAct "role:test,cmd:boom" 0%nat 0%nat (object pnil) (object pnil);
          ENext aw_snap].
Proof. reflexivity. Qed.

(** 'should call middleware routes properly - passing as strings': [head]
    writes the head and proceeds, [res] ends the response and does not
    proceed, so the bridge is never reached. *)
Example piped_stops_at_res :
  serve (setup true (Some []) [piped]) 0 (world "GET" undefined "/piped")
  = Some [EWriteHead 0%nat 200 json_header; EEnd 0%nat success].
Proof. reflexivity. Qed.

(** 'blows up on invalid middleware input' *)
Example broken_blows_up :
  thrown (setup true (Some []) [broken])
  = Some (Error "expected valid middleware, got total not valid").
Proof. reflexivity. Qed.

(** 'post with body parser defined': an upstream parser attaches the body. *)
Example echo_attached_body :
  serve (setup false (Some []) [echo]) 0
    (world "POST" (object (pcons "foo" (str "bar") pnil)) "/echo")
  = Some [EAct "role:test,cmd:echo" 0%nat 0%nat
            (object (pcons "foo" (str "bar") pnil)) (object pnil);
          EWriteHead 0%nat 200 json_header;
          EEnd 0%nat (object (pcons "foo" (str "bar") pnil))].
Proof. reflexivity. Qed.

(** A chain of three callables that each note a status and then invoke
    their continuation: the second one passes an error, so the third never
    runs and the error arrives at the chain's own continuation. *)
Definition noting (status : Z) (verdict : value) : Callable :=
  fun req res next w => next verdict (writeHead res status [] w).

Example chain_short_circuits :
  match composeMiddleware [noting 1 undefined; noting 2 aw_snap; noting 3 undefined] with
  | Ok composed =>
      trace (composed 0%nat 0%nat recording_next (world "GET" undefined "/"))
      = [EWriteHead 0%nat 1 []; EWriteHead 0%nat 2 []; ENext aw_snap]
  | Throw _ => False
  end.
Proof. reflexivity. Qed.

Example chain_runs_in_order :
  match composeMiddleware [noting 1 undefined; noting 2 null; noting 3 undefined] with
  | Ok composed =>
      trace (composed 0%nat 0%nat recording_next (world "GET" undefined "/"))
      = [EWriteHead 0%nat 1 []; EWriteHead 0%nat 2 []; EWriteHead 0%nat 3 [];
         ENext undefined]
  | Throw _ => False
  end.
Proof. reflexivity. Qed.

(** ** The theorems at concrete inputs *)

(** [route ∈ [r1; ...; rn]] and [e ∈ [e1; ...; en]] by cases. *)
Ltac by_cases H :=
  (repeat (apply elem_of_cons in H as [->|H]));
  [..|apply elem_of_nil in H; destruct H].

Lemma method_filter_drops_witness :
  (Request.method (heap (world "DELETE" undefined "/ping") 0%nat) ∉ Route.methods ping) /\
  bridge true ping 0%nat 0%nat recording_next (world "DELETE" undefined "/ping")
  = world "DELETE" undefined "/ping".
Proof.
  assert (H : Request.method (heap (world "DELETE" undefined "/ping") 0%nat)
              ∉ Route.methods ping).
  { apply indexOf_absent. reflexivity. }
  split; [exact H|].
  apply (method_filter_drops (recording_ReadBody bodies) (recording_act actors)
           no_query parse_empty as_is (options true) ping 0%nat 0%nat recording_next
           (world "DELETE" undefined "/ping") H).
Defined.

Lemma no_autoreply_no_response_witness :
  Route.autoreply quiet = false /\ truthy null = false /\
  act_callback as_is quiet 0%nat recording_next null pong (world "GET" undefined "/quiet")
  = world "GET" undefined "/quiet".
Proof.
  split; [reflexivity|]. split; [reflexivity|].
  apply (no_autoreply_no_response as_is quiet 0%nat recording_next null pong); reflexivity.
Defined.

Lemma body_without_parser_witness :
  Options.parseBody (options false) = false /\
  Request.method (heap (world "POST" (str "text") "/echo") 0%nat) ∈ Route.methods echo /\
  exists body : value,
    bridge false echo 0%nat 0%nat recording_next (world "POST" (str "text") "/echo")
    = recording_act actors (Route.pattern echo)
        {| Payload.request_ := 0%nat;
           Payload.response_ := 0%nat;
           Payload.args :=
             {| Args.body := body;
                Args.route := echo;
                Args.query :=
                  parse_empty
                    (no_query
                       (Request.originalUrl
                          (heap (world "POST" (str "text") "/echo") 0%nat))) |} |}
        (act_callback as_is echo 0%nat recording_next)
        (world "POST" (str "text") "/echo")
    /\ (Request.body (heap (world "POST" (str "text") "/echo") 0%nat) = undefined ->
        body = object pnil)
    /\ (truthy (Request.body (heap (world "POST" (str "text") "/echo") 0%nat)) = true ->
        body = Request.body (heap (world "POST" (str "text") "/echo") 0%nat))
    /\ (truthy (Request.body (heap (world "POST" (str "text") "/echo") 0%nat)) = false ->
        body = object pnil).
Proof.
  assert (H : Request.method (heap (world "POST" (str "text") "/echo") 0%nat)
              ∈ Route.methods echo) by left.
  split; [reflexivity|]. split; [exact H|].
  apply (body_without_parser (recording_ReadBody bodies) (recording_act actors)
           no_query parse_empty as_is (options false) echo 0%nat 0%nat recording_next
           (world "POST" (str "text") "/echo") eq_refl H).
Defined.

(** C6, refuted as stated: a body was attached (the number 0, as a JSON
    parser in non-strict mode attaches for the document [0]), and the
    payload dispatched carries an empty mapping instead. *)
Lemma falsy_body_is_replaced :
  Options.parseBody (options false) = false
  /\ Request.method (heap (world "POST" (number (int 0)) "/echo") 0%nat) ∈ Route.methods echo
  /\ Request.body (heap (world "POST" (number (int 0)) "/echo") 0%nat) = number (int 0)
  /\ trace (bridge false echo 0%nat 0%nat recording_next (world "POST" (number (int 0)) "/echo"))
     = [EAct "role:test,cmd:echo" 0%nat 0%nat (object pnil) (object pnil);
        EWriteHead 0%nat 200 json_header;
        EEnd 0%nat (object pnil)]
  /\ object pnil <> number (int 0).
Proof.
  split; [reflexivity|]. split; [left|]. split; [reflexivity|].
  split; [reflexivity|discriminate].
Qed.




Lemma all_entries_valid :
  forall route e, route ∈ [ping; piped] -> e ∈ entries route ->
                  valid_entry (Options.middleware (options true)) e = true.
Proof.
  intros route e Hr He. by_cases Hr.
  - apply elem_of_nil in He. destruct He.
  - cbn in He. by_cases He; reflexivity.
Defined.

Lemma routes_registered_in_order_witness :
  (forall route e, route ∈ [ping; piped] -> e ∈ entries route ->
                   valid_entry (Options.middleware (options true)) e = true) /\
  exists layers,
    Forall2 (registered (recording_ReadBody bodies) (recording_act actors)
               no_query parse_empty as_is (options true)) [ping; piped] layers
    /\ setup true (Some []) [ping; piped]
       = {| host := Some ([] ++ layers)%list;
            done_calls := [(null, Some {| Summary.routes := [ping; piped] |})];
            thrown := None |}.
Proof.
  split; [exact all_entries_valid|].
  apply (routes_registered_in_order (recording_ReadBody bodies) (recording_act actors)
           no_query parse_empty as_is (options true) [] undefined [ping; piped]
           all_entries_valid).
Defined.

(** The paths come out in the order of the routes. *)
Example two_routes_in_order :
  paths (setup true (Some []) [ping; piped]) = Some ["/ping"; "/piped"]
  /\ done_calls (setup true (Some []) [ping; piped])
     = [(null, Some {| Summary.routes := [ping; piped] |})].
Proof. split; reflexivity. Qed.

(** ** More on resolving middleware (lines 20-26) *)

(** What an entry stands for: a function stands for itself, a string for the
    function the named mapping holds under it. *)
Definition resolves_to (middleware : gmap string MwEntry) (e : MwEntry) (f : Callable)
  : Prop :=
  e = MwFun f \/ exists key, e = MwVal (str key) /\ middleware !! key = Some (MwFun f).

Lemma resolve_ok_iff middleware e f :
  resolve middleware e = Ok f <-> resolves_to middleware e f.
Proof.
  unfold resolves_to. split.
  - destruct e as [g|v].
    + intros [= <-]. left. reflexivity.
    + destruct v as [| |b|n|key|fields|name message];
        try (unfold resolve, template, to_string; repeat case_match; discriminate).
      unfold resolve, get. destruct (middleware !! key) as [[g|v']|] eqn:Hk; try discriminate.
      intros [= <-]. right. exists key. split; [reflexivity|exact Hk].
  - intros [->|(key & -> & Hk)]; [reflexivity|].
    unfold resolve, get. rewrite Hk. reflexivity.
Qed.

(** X1. Resolving a middleware list succeeds exactly with the functions the
    entries stand for, one per entry and in the entries' order: a function
    entry is taken as it is, whatever the named mapping holds, and a string
    entry is replaced by the function stored under that key. *)
Theorem resolve_all_in_order middleware (es : list MwEntry) (fs : list Callable) :
  array_map (resolve middleware) es = Ok fs <-> Forall2 (resolves_to middleware) es fs.
Proof.
  split.
  - revert fs. induction es as [|e es' IH]; intros fs; cbn [array_map].
    + intros [= <-]. constructor.
    + destruct (resolve middleware e) as [f|exn] eqn:He; [|discriminate].
      destruct (array_map (resolve middleware) es') as [fs'|exn]; [|discriminate].
      intros [= <-]. constructor; [apply resolve_ok_iff, He | apply IH; reflexivity].
  - induction 1 as [|e f es' fs' He _ IH]; cbn [array_map]; [reflexivity|].
    apply resolve_ok_iff in He. rewrite He, IH. reflexivity.
Qed.

Section MoreRegistration.

Variable ReadBody : ReqRef -> Callback -> Cmd.
Variable act : string -> Payload.t -> Callback -> Cmd.
Variable URL_parse_query : string -> value.
Variable QueryString_parse : value -> value.
Variable JSON_stringify : value -> value.

Local Abbreviation request_bridge :=
  (request_bridge ReadBody act URL_parse_query QueryString_parse JSON_stringify).
Local Abbreviation route_handler :=
  (route_handler ReadBody act URL_parse_query QueryString_parse JSON_stringify).
Local Abbreviation each_route :=
  (each_route ReadBody act URL_parse_query QueryString_parse JSON_stringify).
Local Abbreviation connect :=
  (connect ReadBody act URL_parse_query QueryString_parse JSON_stringify).
Local Abbreviation registered :=
  (registered ReadBody act URL_parse_query QueryString_parse JSON_stringify).

(** X3. [connect] reports success, that is, calls [done(null, {routes})],
    exactly when a context was supplied and every middleware entry of
    every route is valid. *)
Theorem connect_succeeds_iff (options : Options.t) (context : option Host) (auth : value)
    (routes : list Route.t) :
  done_calls (connect options context auth routes)
  = [(null, Some {| Summary.routes := routes |})]
  <-> (exists ctx, context = Some ctx)
      /\ forall route e, route ∈ routes -> e ∈ entries route ->
                         valid_entry (Options.middleware options) e = true.
Proof.
  split.
  - unfold connect. destruct context as [ctx|]; [|discriminate].
    destruct (each_route options routes ctx) as [ctx' [exn|]] eqn:Heach; [discriminate|].
    intros _. split; [eauto|]. intros route e Hr He.
    destruct (valid_entry (Options.middleware options) e) eqn:Hv; [reflexivity|].
    exfalso.
    destruct (route_valid_false options routes) as (pre & bad & post & -> & Hpre & Hbad);
      [eauto|].
    destruct (route_handler_invalid ReadBody act URL_parse_query QueryString_parse
                JSON_stringify _ _ Hbad) as (v & _ & _ & Hthrow).
    destruct (each_route_aborts ReadBody act URL_parse_query QueryString_parse
                JSON_stringify options pre bad post _ Hpre Hthrow ctx) as (layers & _ & Habort).
    rewrite Habort in Heach. discriminate.
  - intros [[ctx ->] Hvalid].
    assert (Hall : Forall (fun r => route_valid options r = true) routes).
    { apply Forall_forall. intros route Hr. unfold route_valid. apply forallb_forall.
      intros e He. apply (Hvalid route e Hr). apply list_elem_of_In, He. }
    destruct (each_route_valid ReadBody act URL_parse_query QueryString_parse
                JSON_stringify options routes Hall ctx) as (layers & _ & Heach).
    unfold connect. rewrite Heach. reflexivity.
Qed.

(** X4. Whatever the routes, [connect] only ever appends to the host's
    stack: the layers found there stay in place, and the new layers are the
    registrations of a leading part of the route list, in order.  The part
    is the whole list unless an exception escaped. *)
Theorem connect_only_appends (options : Options.t) (context : Host) (auth : value)
    (routes : list Route.t) :
  exists (reached rest : list Route.t) (layers : Host),
    routes = (reached ++ rest)%list
    /\ Forall2 (registered options) reached layers
    /\ host (connect options (Some context) auth routes) = Some (context ++ layers)%list
    /\ (thrown (connect options (Some context) auth routes) = None -> rest = []).
Proof.
  assert (Heach : forall routes context,
    exists reached rest layers,
      routes = (reached ++ rest)%list
      /\ Forall2 (registered options) reached layers
      /\ fst (each_route options routes context) = (context ++ layers)%list
      /\ (snd (each_route options routes context) = None -> rest = [])).
  { clear. intros routes. induction routes as [|route rest' IH]; intros context.
    - exists [], [], []. cbn [each_route fst snd app]. rewrite app_nil_r.
      split; [reflexivity|]. split; [apply Forall2_nil_2|]. split; reflexivity.
    - cbn [each_route]. destruct (route_handler options route) as [handler|e] eqn:Hh.
      + destruct (IH (use context (Route.path route) handler))
          as (reached & rest & layers & -> & Hl & Hfst & Hsnd).
        exists (route :: reached), rest, ((Route.path route, handler) :: layers).
        split; [reflexivity|]. split; [constructor; [split; [reflexivity|exact Hh]|exact Hl]|].
        split; [|exact Hsnd]. rewrite Hfst. unfold use. rewrite <- app_assoc. reflexivity.
      + exists [], (route :: rest'), []. cbn [fst snd app]. rewrite app_nil_r.
        split; [reflexivity|]. split; [apply Forall2_nil_2|].
        split; [reflexivity|discriminate]. }
  destruct (Heach routes context) as (reached & rest & layers & Hr & Hl & Hfst & Hsnd).
  exists reached, rest, layers. split; [exact Hr|]. split; [exact Hl|].
  unfold connect. destruct (each_route options routes context) as [ctx' [e|]];
    cbn [fst snd host thrown] in *; subst ctx'.
  - split; [reflexivity|discriminate].
  - split; [reflexivity|]. intros _. apply Hsnd. reflexivity.
Qed.

(** X5. A route's handler depends on the named mapping only through the keys
    the route's entries name: two mappings that agree on those keys give the
    same handler, or the same exception. *)
Theorem unrelated_names_do_not_matter (middleware1 middleware2 : gmap string MwEntry)
    (parseBody : bool) (route : Route.t) :
  (forall key, MwVal (str key) ∈ entries route -> middleware1 !! key = middleware2 !! key) ->
  route_handler {| Options.middleware := middleware1; Options.parseBody := parseBody |} route
  = route_handler {| Options.middleware := middleware2; Options.parseBody := parseBody |} route.
Proof.
  intros Hagree. unfold route_handler. cbn [Options.middleware].
  assert (Hmap : array_map (resolve middleware1) (default [] (Route.middleware route))
                 = array_map (resolve middleware2) (default [] (Route.middleware route))).
  { unfold entries in Hagree. induction (default [] (Route.middleware route)) as [|e es IH].
    - reflexivity.
    - cbn [array_map].
      assert (He : resolve middleware1 e = resolve middleware2 e).
      { destruct e as [f|v]; [reflexivity|].
        destruct v as [| |b|n|key|fields|name message]; try reflexivity.
        unfold resolve, get. rewrite (Hagree key); [reflexivity|left]. }
      rewrite He, IH; [reflexivity|]. intros key Hk. apply Hagree. right. exact Hk. }
  rewrite Hmap. reflexivity.
Qed.

End MoreRegistration.

(** ** Per-route middleware in front of the bridge (lines 20-28) *)

(** What a middleware does before it hands on: a step on the world that may
    depend on the request and the response it is given. *)
Definition Effect := ReqRef -> ResRef -> Cmd.

(** [proceeds m effect]: whatever its continuation, [m] does [effect] and
    then invokes the continuation once, without an error. *)
Definition proceeds (m : Callable) (effect : Effect) : Prop :=
  forall req res (next : Next) w,
    exists v, truthy v = false /\ m req res next w = next v (effect req res w).

(** [never_proceeds m]: [m] never invokes its continuation without an error.
    It may pass errors to it, or not invoke it at all: what [m] does depends
    on its continuation only through what the continuation does with
    errors. *)
Definition never_proceeds (m : Callable) : Prop :=
  forall req res (k next : Next),
    (forall err, truthy err = true -> k err = next err) ->
    forall w, m req res k w = m req res next w.

(** The effects of a list of middleware, one after the other. *)
Definition in_turn (effects : list Effect) : Effect :=
  fun req res w => fold_left (fun w' effect => effect req res w') effects w.

Lemma array_map_of_resolved middleware (es : list MwEntry) (fs : list Callable) :
  Forall2 (resolves_to middleware) es fs -> array_map (resolve middleware) es = Ok fs.
Proof.
  induction 1 as [|e f es' fs' He _ IH]; cbn [array_map]; [reflexivity|].
  apply resolve_ok_iff in He. rewrite He, IH. reflexivity.
Qed.

Lemma continuation_after_proceeding (fs : list Callable) (effects : list Effect)
    (last : Callable) (rest : list Callable) req res next :
  Forall2 proceeds fs effects ->
  forall v0 w, truthy v0 = false ->
    continuation (fs ++ last :: rest) req res next v0 w
    = last req res (continuation rest req res next) (in_turn effects req res w).
Proof.
  induction 1 as [|m effect fs' effects' Hm _ IH]; intros v0 w Hv0.
  - cbn [app]. rewrite continuation_proceed by exact Hv0. reflexivity.
  - cbn [app]. rewrite continuation_proceed by exact Hv0.
    destruct (Hm req res (continuation (fs' ++ last :: rest) req res next) w)
      as (v & Hv & ->).
    rewrite IH by exact Hv. reflexivity.
Qed.

Lemma composed_after_proceeding (fs : list Callable) (effects : list Effect)
    (last : Callable) (rest : list Callable) :
  Forall2 proceeds fs effects ->
  exists composed,
    composeMiddleware (fs ++ last :: rest) = Ok composed
    /\ forall req res next w,
         composed req res next w
         = last req res (continuation rest req res next) (in_turn effects req res w).
Proof.
  intros Hfs. destruct Hfs as [|m effect fs' effects' Hm Hfs'].
  - exists (fold_left compose_step rest last). split; [reflexivity|].
    intros req res next w. apply (f_equal (fun c => c w)), fold_compose_step.
  - exists (fold_left compose_step (fs' ++ last :: rest) m).
    split; [reflexivity|]. intros req res next w. rewrite fold_compose_step.
    destruct (Hm req res (continuation (fs' ++ last :: rest) req res next) w)
      as (v & Hv & ->).
    rewrite (continuation_after_proceeding fs' effects' last rest) by assumption.
    reflexivity.
Qed.

Section Gate.

Variable ReadBody : ReqRef -> Callback -> Cmd.
Variable act : string -> Payload.t -> Callback -> Cmd.
Variable URL_parse_query : string -> value.
Variable QueryString_parse : value -> value.
Variable JSON_stringify : value -> value.

Local Abbreviation request_bridge :=
  (request_bridge ReadBody act URL_parse_query QueryString_parse JSON_stringify).
Local Abbreviation route_handler :=
  (route_handler ReadBody act URL_parse_query QueryString_parse JSON_stringify).

(** X6. When every middleware of a route, given as a function or by its
    name in the mapping, does something and then invokes its continuation
    once without an error, the route's handler does what the middleware do,
    in list order, and then runs the bridge of that route, handing it the
    handler's own [next].  For a route without middleware, the list being
    absent or empty, the handler is the bridge alone. *)
Theorem middleware_then_bridge (options : Options.t) (route : Route.t)
    (fs : list Callable) (effects : list Effect) :
  Forall2 (resolves_to (Options.middleware options)) (entries route) fs ->
  Forall2 proceeds fs effects ->
  exists handler,
    route_handler options route = Ok handler
    /\ forall req res next w,
         handler req res next w
         = request_bridge options route req res next (in_turn effects req res w).
Proof.
  intros Hes Hfs.
  destruct (composed_after_proceeding fs effects (request_bridge options route) [] Hfs)
    as (composed & Hc & Hrun).
  exists composed. split; [|exact Hrun].
  unfold route_handler. unfold entries in Hes.
  rewrite (array_map_of_resolved _ _ _ Hes). exact Hc.
Qed.

(** X7. When the middleware before it proceed and a middleware [m] of a
    route never invokes its continuation without an error, be it that it
    passes an error or that it does not invoke it at all, the handler stops
    at [m]: it does what the earlier middleware do and then what [m] does
    when handed the handler's own [next].  The later middleware and the
    bridge do not come into it, whatever they are: nothing is read and
    nothing is dispatched. *)
Theorem middleware_blocks_bridge (options : Options.t) (route : Route.t)
    (before : list Callable) (effects : list Effect) (m : Callable) (after : list Callable) :
  Forall2 (resolves_to (Options.middleware options)) (entries route)
    (before ++ m :: after)%list ->
  Forall2 proceeds before effects ->
  never_proceeds m ->
  exists handler,
    route_handler options route = Ok handler
    /\ forall req res next w,
         handler req res next w = m req res next (in_turn effects req res w).
Proof.
  intros Hes Hbefore Hm.
  destruct (composed_after_proceeding before effects m
              (after ++ [request_bridge options route]) Hbefore) as (composed & Hc & Hrun).
  exists composed. split.
  - unfold route_handler. unfold entries in Hes.
    rewrite (array_map_of_resolved _ _ _ Hes), <- app_assoc. exact Hc.
  - intros req res next w. rewrite Hrun. apply Hm.
    intros err Herr. apply continuation_error, Herr.
Qed.

End Gate.

(** ** What a whole run of the bridge dispatches and writes *)

Definition is_act (ev : Event) : bool :=
  match ev with
  | EAct _ _ _ _ _ => true
  | _ => false
  end.

(** The dispatches recorded in a trace. *)
Definition dispatches (evs : list Event) : list Event := List.filter is_act evs.

(** The bodies the reader yielded without an error. *)
Fixpoint accepted (replies : Replies) : list value :=
  match replies with
  | [] => []
  | (err, body) :: replies' =>
      if truthy err then accepted replies' else body :: accepted replies'
  end.

Lemma dispatches_log evs w :
  dispatches (trace (log evs w)) = (dispatches (trace w) ++ dispatches evs)%list.
Proof. unfold dispatches, log. cbn [trace]. apply List.filter_app. Qed.

(** A response event the adapter may cause on [reply] for a route: none
    unless the route autoreplies, and then only the head with status 200 and
    the JSON content type, and the end with a serialized dispatch result. *)
Definition write_allowed (JSON_stringify : value -> value)
    (act_script : string -> Payload.t -> Replies) (route : Route.t) (reply : ResRef)
    (ev : Event) : Prop :=
  match ev with
  | EWriteHead res status headers =>
      Route.autoreply route = true /\ res = reply /\ status = 200%Z
      /\ headers = [("Content-Type", "application/json")]
  | EEnd res data =>
      Route.autoreply route = true /\ res = reply
      /\ exists payload err result,
           (err, result) ∈ act_script (Route.pattern route) payload
           /\ truthy err = false /\ data = JSON_stringify result
  | _ => True
  end.

Section MoreRuns.

Variable body_script : ReqRef -> Replies.
Variable act_script : string -> Payload.t -> Replies.
Variable URL_parse_query : string -> value.
Variable QueryString_parse : value -> value.
Variable JSON_stringify : value -> value.

Local Abbreviation act_callback := (act_callback JSON_stringify).
Local Abbreviation finish :=
  (finish (recording_act act_script) URL_parse_query QueryString_parse JSON_stringify).
Local Abbreviation request_bridge :=
  (request_bridge (recording_ReadBody body_script) (recording_act act_script)
     URL_parse_query QueryString_parse JSON_stringify).

(** The dispatch of [body] for a request whose URL is [url]. *)
Definition dispatch_of (route : Route.t) (request : ReqRef) (reply : ResRef)
    (url : string) (body : value) : Event :=
  EAct (Route.pattern route) request reply body
    (QueryString_parse (URL_parse_query url)).

Lemma act_callback_dispatches route reply err response w :
  heap (act_callback route reply recording_next err response w) = heap w
  /\ dispatches (trace (act_callback route reply recording_next err response w))
     = dispatches (trace w).
Proof.
  unfold act_callback, recording_next, end_, writeHead.
  destruct (truthy err); [|destruct (Route.autoreply route)];
    (split; [reflexivity|]); rewrite ?dispatches_log; cbn; rewrite ?app_nil_r; reflexivity.
Qed.

Lemma call_back_dispatches (cb : Callback) (h : ReqRef -> Request.t)
    (added : value * value -> list Event) (replies : Replies) :
  (forall r w, heap w = h ->
     heap (cb (fst r) (snd r) w) = h
     /\ dispatches (trace (cb (fst r) (snd r) w)) = (dispatches (trace w) ++ added r)%list) ->
  forall w, heap w = h ->
    heap (call_back cb replies w) = h
    /\ dispatches (trace (call_back cb replies w))
       = (dispatches (trace w) ++ concat (List.map added replies))%list.
Proof.
  intros Hcb. unfold call_back.
  induction replies as [|r replies' IH]; intros w Hw; cbn [fold_left List.map concat].
  - rewrite app_nil_r. split; [exact Hw|reflexivity].
  - destruct (Hcb r w Hw) as [Hh Hd]. destruct (IH _ Hh) as [Hh' Hd'].
    split; [exact Hh'|]. rewrite Hd', Hd, app_assoc. reflexivity.
Qed.

Lemma concat_map_nil {A B : Type} (l : list A) :
  concat (List.map (fun _ : A => @nil B) l) = [].
Proof. induction l as [|a l' IH]; [reflexivity|exact IH]. Qed.

Lemma finish_dispatches route request reply err body w :
  heap (finish route request reply recording_next err body w) = heap w
  /\ dispatches (trace (finish route request reply recording_next err body w))
     = (dispatches (trace w)
        ++ (if truthy err then []
            else [dispatch_of route request reply
                    (Request.originalUrl (heap w request)) body]))%list.
Proof.
  unfold finish. destruct (truthy err).
  - unfold recording_next. split; [reflexivity|].
    rewrite dispatches_log. reflexivity.
  - unfold recording_act. cbn [Payload.request_ Payload.response_ Payload.args
                                 Args.body Args.query].
    match goal with |- context [call_back ?cb ?rs (log ?evs w)] =>
      destruct (call_back_dispatches cb (heap w) (fun _ => []) rs) with (w := log evs w)
        as [Hh Hd]
    end.
    + intros r w' Hw'. destruct (act_callback_dispatches route reply (fst r) (snd r) w')
        as [Hh Hd]. split; [congruence|]. rewrite Hd, app_nil_r. reflexivity.
    + reflexivity.
    + split; [exact Hh|]. rewrite Hd, concat_map_nil, app_nil_r, dispatches_log.
      reflexivity.
Qed.

Lemma accepted_dispatches route request reply url (replies : Replies) :
  concat (List.map (fun r : value * value =>
                      if truthy (fst r) then []
                      else [dispatch_of route request reply url (snd r)]) replies)
  = List.map (dispatch_of route request reply url) (accepted replies).
Proof.
  induction replies as [|[err body] replies' IH]; [reflexivity|].
  cbn [List.map concat accepted fst snd]. destruct (truthy err); cbn [app List.map];
    rewrite IH; reflexivity.
Qed.

(** X8. The dispatches of one run of the bridge, for any replies of the
    collaborators: none when the method does not match; with [parseBody]
    off, exactly one, carrying [request.body || {}]; with [parseBody] on,
    one per body the reader yields without an error, in order, carrying that
    body and not the one attached to the request.  Every dispatch is for the
    route's own pattern, with the request and response of the run and the
    parsed query of the request's URL. *)
Theorem dispatches_of_run (options : Options.t) (route : Route.t)
    (request : ReqRef) (reply : ResRef) (w : World) :
  dispatches (trace (request_bridge options route request reply recording_next w))
  = (dispatches (trace w)
     ++ List.map (dispatch_of route request reply (Request.originalUrl (heap w request)))
          (if bool_decide (Request.method (heap w request) ∈ Route.methods route) then
             if Options.parseBody options then accepted (body_script request)
             else [logical_or (Request.body (heap w request)) (object pnil)]
           else []))%list.
Proof.
  unfold request_bridge.
  destruct (Z.eqb_spec (indexOf (Route.methods route) (Request.method (heap w request)))
              (-1)) as [Hi|Hi]; cbn [negb].
  - apply indexOf_absent in Hi. rewrite bool_decide_eq_false_2 by exact Hi.
    cbn [List.map]. rewrite app_nil_r. reflexivity.
  - rewrite bool_decide_eq_true_2
      by (destruct (decide (Request.method (heap w request) ∈ Route.methods route))
            as [Hin|Hnin]; [exact Hin | apply indexOf_absent in Hnin; contradiction]).
    destruct (Options.parseBody options).
    + unfold recording_ReadBody.
      match goal with |- context [call_back ?cb ?rs (log ?evs w)] =>
        destruct (call_back_dispatches cb (heap w)
                    (fun r => if truthy (fst r) then []
                              else [dispatch_of route request reply
                                      (Request.originalUrl (heap w request)) (snd r)]) rs)
          with (w := log evs w) as [_ Hd]
      end.
      * intros r w' Hw'.
        destruct (finish_dispatches route request reply (fst r) (snd r) w') as [Hh Hd].
        split; [congruence|]. rewrite Hd, Hw'. reflexivity.
      * reflexivity.
      * rewrite Hd, accepted_dispatches, dispatches_log. cbn [dispatches List.filter is_act].
        rewrite app_nil_r. reflexivity.
    + destruct (finish_dispatches route request reply null
                  (logical_or (Request.body (heap w request)) (object pnil)) w) as [_ Hd].
      exact Hd.
Qed.

Lemma act_callback_writes route reply err response w payload :
  (err, response) ∈ act_script (Route.pattern route) payload ->
  extends (write_allowed JSON_stringify act_script route reply)
    w (act_callback route reply recording_next err response w).
Proof.
  intros Hin. unfold act_callback. destruct (truthy err) eqn:Herr.
  - apply extends_log. each_event.
  - destruct (Route.autoreply route) eqn:Hauto.
    + eapply extends_trans; apply extends_log; each_event.
      * repeat split; assumption || reflexivity.
      * split; [exact Hauto|]. split; [reflexivity|]. exists payload, err, response. auto.
    + apply extends_refl.
Qed.

Lemma finish_writes route request reply err body w :
  extends (write_allowed JSON_stringify act_script route reply)
    w (finish route request reply recording_next err body w).
Proof.
  unfold finish. destruct (truthy err).
  - apply extends_log. each_event.
  - unfold recording_act. apply extends_then_call_back.
    + apply extends_log. each_event.
    + intros [e r] w' Hr. eapply act_callback_writes, Hr.
Qed.

(** X9. The response events of one run of the bridge, for any replies of the
    collaborators: on a route without autoreply there are none at all; on a
    route with autoreply every head written is on the run's response with
    status 200 and Content-Type: application/json, and every end carries
    [JSON.stringify] of a result that the actor system replied without an
    error for the route's pattern. *)
Theorem writes_of_run (options : Options.t) (route : Route.t)
    (request : ReqRef) (reply : ResRef) (w : World) :
  exists evs : list Event,
    trace (request_bridge options route request reply recording_next w)
    = (trace w ++ evs)%list
    /\ Forall (write_allowed JSON_stringify act_script route reply) evs.
Proof.
  assert (H : extends (write_allowed JSON_stringify act_script route reply)
                w (request_bridge options route request reply recording_next w)).
  { unfold request_bridge. destruct (negb _); [|apply extends_refl].
    destruct (Options.parseBody options).
    - unfold recording_ReadBody. apply extends_then_call_back.
      + apply extends_log. each_event.
      + intros r w' _. apply finish_writes.
    - apply finish_writes. }
  destruct H as [_ (evs & Ht & HP)]. exists evs. split; assumption.
Qed.

(** X10. With [parseBody] on and a matching method, when every reply of the
    body reader carries an error, the run consists of the read and one
    [next(err)] per reply, in order: nothing is dispatched and nothing is
    written. *)
Theorem body_errors_skip_dispatch (options : Options.t) (route : Route.t)
    (request : ReqRef) (reply : ResRef) (w : World) :
  Options.parseBody options = true ->
  Request.method (heap w request) ∈ Route.methods route ->
  (forall r, r ∈ body_script request -> truthy (fst r) = true) ->
  trace (request_bridge options route request reply recording_next w)
  = (trace w ++ EReadBody request
               :: List.map (fun r => ENext (fst r)) (body_script request))%list.
Proof.
  intros Hparse Hm Herrs. unfold request_bridge. rewrite Hparse.
  destruct (Z.eqb_spec (indexOf (Route.methods route) (Request.method (heap w request)))
              (-1)) as [Hi|Hi]; [apply indexOf_absent in Hi; contradiction|].
  cbn [negb]. unfold recording_ReadBody, call_back.
  assert (Hfold : forall (replies : Replies) w0,
            (forall r, r ∈ replies -> truthy (fst r) = true) ->
            trace (fold_left (fun w' r =>
                     finish route request reply recording_next (fst r) (snd r) w')
                     replies w0)
            = (trace w0 ++ List.map (fun r => ENext (fst r)) replies)%list).
  { clear. induction replies as [|r replies' IH]; intros w0 Herrs; cbn [fold_left List.map].
    - rewrite app_nil_r. reflexivity.
    - rewrite IH by (intros r' Hr'; apply Herrs; right; exact Hr').
      unfold finish. rewrite (Herrs r) by left.
      unfold recording_next, log. cbn [trace]. rewrite <- app_assoc. reflexivity. }
  rewrite Hfold by exact Herrs. unfold log. cbn [trace].
  rewrite <- app_assoc. reflexivity.
Qed.

End MoreRuns.

(** ** Composing in pieces *)

(** The reducer is associative, as functions of [(req, res, next)] and the
    world. *)
Lemma compose_step_assoc (a b c : Callable) :
  compose_step (compose_step a b) c = compose_step a (compose_step b c).
Proof.
  unfold compose_step.
  extensionality req. extensionality res. extensionality next.
  f_equal. extensionality err. cbv beta.
  destruct (truthy err); reflexivity.
Qed.

Lemma fold_compose_step_assoc (rest : list Callable) :
  forall a b : Callable,
    fold_left compose_step rest (compose_step a b)
    = compose_step a (fold_left compose_step rest b).
Proof.
  induction rest as [|c rest' IH]; intros a b; cbn [fold_left]; [reflexivity|].
  rewrite compose_step_assoc. apply IH.
Qed.

(** X11. Composition can be done in pieces: composing the concatenation of
    two non-empty lists gives the callable that the reducer builds from the
    two composed halves.  So a chain composed from a route's middleware and
    then extended by one more callable behaves as the chain composed from
    the whole list. *)
Theorem composeMiddleware_app (l1 l2 : list Callable) (c1 c2 : Callable) :
  composeMiddleware l1 = Ok c1 ->
  composeMiddleware l2 = Ok c2 ->
  composeMiddleware (l1 ++ l2)%list = Ok (compose_step c1 c2).
Proof.
  destruct l1 as [|first1 rest1]; [discriminate|].
  destruct l2 as [|first2 rest2]; [discriminate|].
  cbn [composeMiddleware app]. intros [= <-] [= <-]. f_equal.
  rewrite fold_left_app. cbn [fold_left]. apply fold_compose_step_assoc.
Qed.

(** ** The further theorems at concrete inputs *)

(** The named mapping of the tests with one more, unrelated, property. *)
Definition named_and_more : gmap string MwEntry :=
  <["other" := MwVal (number (int 1))]> named.

Lemma piped_names_agree :
  forall key, MwVal (str key) ∈ entries piped -> named !! key = named_and_more !! key.
Proof.
  intros key Hk. cbn in Hk.
  apply elem_of_cons in Hk as [Hk|Hk]; [injection Hk as ->; reflexivity|].
  apply elem_of_cons in Hk as [Hk|Hk]; [injection Hk as ->; reflexivity|].
  apply elem_of_nil in Hk. destruct Hk.
Defined.

Lemma unrelated_names_do_not_matter_witness :
  (forall key, MwVal (str key) ∈ entries piped -> named !! key = named_and_more !! key) /\
  route_handler (recording_ReadBody bodies) (recording_act actors) no_query parse_empty as_is
    {| Options.middleware := named; Options.parseBody := true |} piped
  = route_handler (recording_ReadBody bodies) (recording_act actors) no_query parse_empty
      as_is {| Options.middleware := named_and_more; Options.parseBody := true |} piped.
Proof.
  split; [exact piped_names_agree|].
  apply (unrelated_names_do_not_matter (recording_ReadBody bodies) (recording_act actors)
           no_query parse_empty as_is named named_and_more true piped piped_names_agree).
Defined.

(** A body reader that fails on every request. *)
Definition failing_bodies : ReqRef -> Replies := fun _ => [(aw_snap, undefined)].

Lemma failing_bodies_fail :
  forall r, r ∈ failing_bodies 0%nat -> truthy (fst r) = true.
Proof.
  intros r Hr. unfold failing_bodies in Hr. by_cases Hr. reflexivity.
Defined.

Lemma get_matches_ping :
  Request.method (heap (world "GET" undefined "/ping") 0%nat) ∈ Route.methods ping.
Proof. left. Defined.

Lemma body_errors_skip_dispatch_witness :
  Options.parseBody (options true) = true
  /\ Request.method (heap (world "GET" undefined "/ping") 0%nat) ∈ Route.methods ping
  /\ (forall r, r ∈ failing_bodies 0%nat -> truthy (fst r) = true)
  /\ trace (request_bridge (recording_ReadBody failing_bodies) (recording_act actors)
              no_query parse_empty as_is (options true) ping 0%nat 0%nat recording_next
              (world "GET" undefined "/ping"))
     = (trace (world "GET" undefined "/ping")
        ++ EReadBody 0%nat :: List.map (fun r => ENext (fst r)) (failing_bodies 0%nat))%list.
Proof.
  split; [reflexivity|]. split; [exact get_matches_ping|].
  split; [exact failing_bodies_fail|].
  apply (body_errors_skip_dispatch failing_bodies actors no_query parse_empty as_is
           (options true) ping 0%nat 0%nat (world "GET" undefined "/ping")
           eq_refl get_matches_ping failing_bodies_fail).
Defined.

Lemma composeMiddleware_app_witness :
  composeMiddleware [noting 1 undefined] = Ok (noting 1 undefined)
  /\ composeMiddleware [noting 2 undefined; noting 3 undefined]
     = Ok (compose_step (noting 2 undefined) (noting 3 undefined))
  /\ composeMiddleware ([noting 1 undefined] ++ [noting 2 undefined; noting 3 undefined])%list
     = Ok (compose_step (noting 1 undefined)
             (compose_step (noting 2 undefined) (noting 3 undefined))).
Proof.
  split; [reflexivity|]. split; [reflexivity|].
  apply (composeMiddleware_app [noting 1 undefined] [noting 2 undefined; noting 3 undefined]
           (noting 1 undefined) (compose_step (noting 2 undefined) (noting 3 undefined))
           eq_refl eq_refl).
Defined.

(** Two sanity checks of the run theorems against the tests' routes: a GET
    on [/ping] dispatches once, and the [quiet] route writes nothing. *)
Example ping_dispatches_once :
  dispatches (trace (bridge true ping 0%nat 0%nat recording_next
                       (world "GET" undefined "/ping")))
  = [EAct "role:test,cmd:ping" 0%nat 0%nat (object pnil) (object pnil)].
Proof. reflexivity. Qed.

Example quiet_writes_nothing :
  trace (bridge true quiet 0%nat 0%nat recording_next (world "GET" undefined "/quiet"))
  = [EReadBody 0%nat; EAct "role:test,cmd:quiet" 0%nat 0%nat (object pnil) (object pnil)].
Proof. reflexivity. Qed.

(** ** The whole trace of a run of the bridge *)

Definition is_response (ev : Event) : bool :=
  match ev with
  | EWriteHead _ _ _ | EEnd _ _ => true
  | _ => false
  end.

(** The calls made on responses that a trace records. *)
Definition responses (evs : list Event) : list Event := List.filter is_response evs.

Lemma call_back_trace (cb : Callback) (h : ReqRef -> Request.t)
    (added : value * value -> list Event) (replies : Replies) :
  (forall r w, heap w = h ->
     heap (cb (fst r) (snd r) w) = h
     /\ trace (cb (fst r) (snd r) w) = (trace w ++ added r)%list) ->
  forall w, heap w = h ->
    heap (call_back cb replies w) = h
    /\ trace (call_back cb replies w) = (trace w ++ concat (List.map added replies))%list.
Proof.
  intros Hcb. unfold call_back.
  induction replies as [|r replies' IH]; intros w Hw; cbn [fold_left List.map concat].
  - rewrite app_nil_r. split; [exact Hw|reflexivity].
  - destruct (Hcb r w Hw) as [Hh Ht]. destruct (IH _ Hh) as [Hh' Ht'].
    split; [exact Hh'|]. rewrite Ht', Ht, app_assoc. reflexivity.
Qed.

Lemma responses_concat_map {A : Type} (f : A -> list Event) (l : list A) :
  responses (concat (List.map f l)) = concat (List.map (fun a => responses (f a)) l).
Proof.
  unfold responses. induction l as [|a l' IH]; cbn [List.map concat]; [reflexivity|].
  rewrite List.filter_app, IH. reflexivity.
Qed.

Section RunTrace.

Variable body_script : ReqRef -> Replies.
Variable act_script : string -> Payload.t -> Replies.
Variable URL_parse_query : string -> value.
Variable QueryString_parse : value -> value.
Variable JSON_stringify : value -> value.

Local Abbreviation request_bridge :=
  (request_bridge (recording_ReadBody body_script) (recording_act act_script)
     URL_parse_query QueryString_parse JSON_stringify).
Local Abbreviation dispatch_of := (dispatch_of URL_parse_query QueryString_parse).

(** The payload the bridge builds for [body], for a request whose URL is
    [url] (lines 41-49). *)
Definition payload_of (route : Route.t) (request : ReqRef) (reply : ResRef)
    (url : string) (body : value) : Payload.t :=
  {| Payload.request_ := request;
     Payload.response_ := reply;
     Payload.args :=
       {| Args.body := body;
          Args.route := route;
          Args.query := QueryString_parse (URL_parse_query url) |} |}.

(** The JSON answer to a dispatch result. *)
Definition json_answer (reply : ResRef) (result : value) : list Event :=
  [EWriteHead reply 200 [("Content-Type", "application/json")];
   EEnd reply (JSON_stringify result)].

(** What one reply [(err, result)] of the actor system leads to: [next(err)]
    for an error; otherwise the JSON answer on an autoreply route, and
    nothing on another route. *)
Definition reply_events (route : Route.t) (reply : ResRef) (r : value * value)
  : list Event :=
  if truthy (fst r) then [ENext (fst r)]
  else if Route.autoreply route then json_answer reply (snd r)
  else [].

(** The dispatch of [body] and what the replies to it lead to. *)
Definition dispatch_events (route : Route.t) (request : ReqRef) (reply : ResRef)
    (url : string) (body : value) : list Event :=
  dispatch_of route request reply url body
  :: concat (List.map (reply_events route reply)
               (act_script (Route.pattern route) (payload_of route request reply url body))).

(** What one reply [(err, body)] of the body reader leads to: [next(err)]
    for an error, the dispatch of [body] otherwise. *)
Definition read_events (route : Route.t) (request : ReqRef) (reply : ResRef)
    (url : string) (r : value * value) : list Event :=
  if truthy (fst r) then [ENext (fst r)]
  else dispatch_events route request reply url (snd r).

(** The bodies a run dispatches. *)
Definition dispatched (options : Options.t) (route : Route.t) (request : ReqRef)
    (w : World) : list value :=
  if bool_decide (Request.method (heap w request) ∈ Route.methods route) then
    if Options.parseBody options then accepted (body_script request)
    else [logical_or (Request.body (heap w request)) (object pnil)]
  else [].

(** All the events of one run. *)
Definition run_events (options : Options.t) (route : Route.t) (request : ReqRef)
    (reply : ResRef) (w : World) : list Event :=
  let url := Request.originalUrl (heap w request) in
  if bool_decide (Request.method (heap w request) ∈ Route.methods route) then
    if Options.parseBody options then
      EReadBody request
      :: concat (List.map (read_events route request reply url) (body_script request))
    else
      dispatch_events route request reply url
        (logical_or (Request.body (heap w request)) (object pnil))
  else [].

Lemma act_callback_trace route reply err response w :
  heap (act_callback JSON_stringify route reply recording_next err response w) = heap w
  /\ trace (act_callback JSON_stringify route reply recording_next err response w)
     = (trace w ++ reply_events route reply (err, response))%list.
Proof.
  unfold act_callback, reply_events, json_answer, recording_next, end_, writeHead, log.
  cbn [fst snd heap trace].
  destruct (truthy err); [|destruct (Route.autoreply route)]; cbn [heap trace];
    (split; [reflexivity|]); rewrite <- ?app_assoc, ?app_nil_r; reflexivity.
Qed.

Lemma finish_trace route request reply err body w :
  heap (finish (recording_act act_script) URL_parse_query QueryString_parse JSON_stringify
          route request reply recording_next err body w) = heap w
  /\ trace (finish (recording_act act_script) URL_parse_query QueryString_parse
              JSON_stringify route request reply recording_next err body w)
     = (trace w ++ read_events route request reply
                     (Request.originalUrl (heap w request)) (err, body))%list.
Proof.
  unfold finish, read_events. cbn [fst snd]. destruct (truthy err).
  - split; reflexivity.
  - unfold recording_act, dispatch_events.
    match goal with |- context [call_back ?cb ?rs (log ?evs w)] =>
      destruct (call_back_trace cb (heap w) (reply_events route reply) rs)
        with (w := log evs w) as [Hh Ht]
    end.
    + intros [e r] w' Hw'. cbn [fst snd].
      destruct (act_callback_trace route reply e r w') as [Hh Ht].
      split; [congruence|exact Ht].
    + reflexivity.
    + split; [exact Hh|]. rewrite Ht. unfold log. cbn [trace].
      rewrite <- app_assoc. reflexivity.
Qed.

Lemma run_trace options route request reply w :
  trace (request_bridge options route request reply recording_next w)
  = (trace w ++ run_events options route request reply w)%list.
Proof.
  unfold request_bridge, run_events.
  destruct (Z.eqb_spec (indexOf (Route.methods route) (Request.method (heap w request)))
              (-1)) as [Hi|Hi]; cbn [negb].
  - apply indexOf_absent in Hi. rewrite bool_decide_eq_false_2 by exact Hi.
    rewrite app_nil_r. reflexivity.
  - rewrite bool_decide_eq_true_2
      by (destruct (decide (Request.method (heap w request) ∈ Route.methods route))
            as [Hin|Hnin]; [exact Hin | apply indexOf_absent in Hnin; contradiction]).
    destruct (Options.parseBody options).
    + unfold recording_ReadBody.
      match goal with |- context [call_back ?cb ?rs (log ?evs w)] =>
        destruct (call_back_trace cb (heap w)
                    (read_events route request reply
                       (Request.originalUrl (heap w request))) rs)
          with (w := log evs w) as [_ Ht]
      end.
      * intros [e b] w' Hw'. cbn [fst snd].
        destruct (finish_trace route request reply e b w') as [Hh Ht].
        split; [congruence|]. rewrite Ht, Hw'. reflexivity.
      * reflexivity.
      * rewrite Ht. unfold log. cbn [trace]. rewrite <- app_assoc. reflexivity.
    + destruct (finish_trace route request reply null
                  (logical_or (Request.body (heap w request)) (object pnil)) w) as [_ Ht].
      exact Ht.
Qed.

Lemma responses_reply_events route reply r :
  Route.autoreply route = true ->
  responses (reply_events route reply r)
  = if truthy (fst r) then [] else json_answer reply (snd r).
Proof.
  intros Hauto. unfold reply_events. rewrite Hauto. destruct (truthy (fst r)); reflexivity.
Qed.

(** The answers to the error-free replies to the dispatch of [body]. *)
Definition answers (route : Route.t) (request : ReqRef) (reply : ResRef)
    (url : string) (body : value) : list Event :=
  concat (List.map (fun r : value * value =>
                      if truthy (fst r) then [] else json_answer reply (snd r))
            (act_script (Route.pattern route) (payload_of route request reply url body))).

Lemma responses_dispatch_events route request reply url body :
  Route.autoreply route = true ->
  responses (dispatch_events route request reply url body)
  = answers route request reply url body.
Proof.
  intros Hauto. unfold dispatch_events, answers.
  change (responses (?ev :: ?l)) with (responses l).
  rewrite responses_concat_map. f_equal. apply List.map_ext.
  intros r. apply responses_reply_events, Hauto.
Qed.

Lemma responses_read_events route request reply url (replies : Replies) :
  Route.autoreply route = true ->
  responses (concat (List.map (read_events route request reply url) replies))
  = concat (List.map (answers route request reply url) (accepted replies)).
Proof.
  intros Hauto. rewrite responses_concat_map.
  induction replies as [|[err body] replies' IH]; [reflexivity|].
  cbn [List.map concat accepted]. unfold read_events at 1. cbn [fst snd].
  destruct (truthy err).
  - exact IH.
  - cbn [List.map concat]. rewrite IH, responses_dispatch_events by exact Hauto.
    reflexivity.
Qed.

(** C3. On a route with [autoreply] set, the calls the adapter makes on
    responses during a run of the bridge, whatever the collaborators reply
    and however often, are exactly these: for every dispatch of the run, in
    order, and for every reply to it that the actor system gives without an
    error, in order, [writeHead] with status 200 and the header Content-Type:
    application/json, followed by [end] with [JSON.stringify] of the result
    replied, both on the response of the run.  The dispatch callback itself,
    called without an error, does just that and nothing else, for any
    continuation and in any world. *)
Theorem autoreply_answers_every_result (options : Options.t) (route : Route.t)
    (request : ReqRef) (reply : ResRef) (w : World) :
  Route.autoreply route = true ->
  responses (trace (request_bridge options route request reply recording_next w))
  = (responses (trace w)
     ++ concat
          (List.map
             (fun body =>
                concat
                  (List.map
                     (fun r : value * value =>
                        if truthy (fst r) then []
                        else [EWriteHead reply 200 [("Content-Type", "application/json")];
                              EEnd reply (JSON_stringify (snd r))])
                     (act_script (Route.pattern route)
                        (payload_of route request reply
                           (Request.originalUrl (heap w request)) body))))
             (dispatched options route request w)))%list
  /\ forall (next : Next) (err response : value) (w' : World),
       truthy err = false ->
       act_callback JSON_stringify route reply next err response w'
       = log [EWriteHead reply 200 [("Content-Type", "application/json")];
              EEnd reply (JSON_stringify response)] w'.
Proof.
  intros Hauto. split.
  - rewrite run_trace. unfold responses at 1. rewrite List.filter_app.
    fold (responses (trace w)).
    fold (responses (run_events options route request reply w)). f_equal.
    unfold run_events, dispatched.
    destruct (bool_decide _); [|reflexivity].
    destruct (Options.parseBody options).
    + change (responses (?ev :: ?l)) with (responses l).
      apply responses_read_events, Hauto.
    + cbn [List.map concat]. rewrite app_nil_r.
      apply responses_dispatch_events, Hauto.
  - intros next err response w' Herr. unfold act_callback, end_, writeHead, log.
    rewrite Herr, Hauto. cbn [heap trace]. rewrite <- app_assoc. reflexivity.
Qed.

(** C4. The events of a run of the bridge, whatever the collaborators reply
    and however often, are exactly [run_events]: in it a reply of the body
    reader that carries an error stands for one invocation [next(err)] with
    that error and for nothing else (no dispatch, no call on the response),
    and so does a reply of the actor system that carries an error.  [finish]
    and the dispatch callback, called with an error, are [next(err)] and
    nothing else, for any actor system, any continuation and any world. *)
Theorem request_errors_reach_next (options : Options.t) (route : Route.t)
    (request : ReqRef) (reply : ResRef) (w : World) :
  trace (request_bridge options route request reply recording_next w)
  = (trace w ++ run_events options route request reply w)%list
  /\ (forall url r, truthy (fst r) = true ->
        read_events route request reply url r = [ENext (fst r)])
  /\ (forall r, truthy (fst r) = true ->
        reply_events route reply r = [ENext (fst r)])
  /\ (forall (act : string -> Payload.t -> Callback -> Cmd) (next : Next)
             (err result : value) (w' : World),
        truthy err = true ->
        finish act URL_parse_query QueryString_parse JSON_stringify
          route request reply next err result w' = next err w'
        /\ act_callback JSON_stringify route reply next err result w' = next err w').
Proof.
  split; [apply run_trace|]. split; [|split].
  - intros url r Hr. unfold read_events. rewrite Hr. reflexivity.
  - intros r Hr. unfold reply_events. rewrite Hr. reflexivity.
  - intros act next err result w' Herr. unfold finish, act_callback.
    rewrite Herr. split; reflexivity.
Qed.

End RunTrace.

(** ** The run and gate theorems at concrete inputs *)

Lemma autoreply_answers_every_result_witness :
  Route.autoreply ping = true /\
  responses (trace (bridge true ping 0%nat 0%nat recording_next
                      (world "GET" undefined "/ping")))
  = (responses (trace (world "GET" undefined "/ping"))
     ++ concat
          (List.map
             (fun body =>
                concat
                  (List.map
                     (fun r : value * value =>
                        if truthy (fst r) then []
                        else [EWriteHead 0%nat 200 [("Content-Type", "application/json")];
                              EEnd 0%nat (as_is (snd r))])
                     (actors (Route.pattern ping)
                        (payload_of no_query parse_empty ping 0%nat 0%nat
                           (Request.originalUrl (heap (world "GET" undefined "/ping") 0%nat))
                           body))))
             (dispatched bodies (options true) ping 0%nat
                (world "GET" undefined "/ping"))))%list
  /\ forall (next : Next) (err response : value) (w' : World),
       truthy err = false ->
       act_callback as_is ping 0%nat next err response w'
       = log [EWriteHead 0%nat 200 [("Content-Type", "application/json")];
              EEnd 0%nat (as_is response)] w'.
Proof.
  split; [reflexivity|].
  apply (autoreply_answers_every_result bodies actors no_query parse_empty as_is
           (options true) ping 0%nat 0%nat (world "GET" undefined "/ping") eq_refl).
Defined.

(** The run behind the witness, spelled out: one dispatch, one answer. *)
Example ping_answers_once :
  responses (trace (bridge true ping 0%nat 0%nat recording_next
                      (world "GET" undefined "/ping")))
  = [EWriteHead 0%nat 200 json_header; EEnd 0%nat pong]
  /\ run_events bodies actors no_query parse_empty as_is (options true) ping 0%nat 0%nat
       (world "GET" undefined "/ping")
     = [EReadBody 0%nat;
        EAct "role:test,cmd:ping" 0%nat 0%nat (object pnil) (object pnil);
        EWriteHead 0%nat 200 json_header;
        EEnd 0%nat pong].
Proof. split; reflexivity. Qed.

(** What [head] of the tests does before it proceeds. *)
Definition head_effect : Effect := fun req res => writeHead res 200 json_header.

Lemma head_proceeds : Forall2 proceeds [head] [head_effect].
Proof.
  apply Forall2_cons_2; [|apply Forall2_nil_2].
  intros req res next w. exists undefined. split; reflexivity.
Defined.

Lemma res_never_proceeds : never_proceeds res.
Proof. intros req r k next _ w. reflexivity. Defined.

Definition headed : Route.t := route "headed" ["GET"] (Some [MwVal (str "head")]) true.

Lemma headed_resolves :
  Forall2 (resolves_to (Options.middleware (options true))) (entries headed) [head].
Proof.
  apply Forall2_cons_2; [|apply Forall2_nil_2].
  right. exists "head". split; reflexivity.
Defined.

Lemma piped_resolves :
  Forall2 (resolves_to (Options.middleware (options true))) (entries piped)
    ([head] ++ res :: [])%list.
Proof.
  apply Forall2_cons_2; [right; exists "head"; split; reflexivity|].
  apply Forall2_cons_2; [right; exists "res"; split; reflexivity|].
  apply Forall2_nil_2.
Defined.

Lemma middleware_then_bridge_witness :
  Forall2 (resolves_to (Options.middleware (options true))) (entries headed) [head] /\
  Forall2 proceeds [head] [head_effect] /\
  exists handler,
    route_handler (recording_ReadBody bodies) (recording_act actors) no_query parse_empty
      as_is (options true) headed = Ok handler
    /\ forall req res next w,
         handler req res next w
         = request_bridge (recording_ReadBody bodies) (recording_act actors) no_query
             parse_empty as_is (options true) headed req res next
             (in_turn [head_effect] req res w).
Proof.
  split; [exact headed_resolves|]. split; [exact head_proceeds|].
  apply (middleware_then_bridge (recording_ReadBody bodies) (recording_act actors)
           no_query parse_empty as_is (options true) headed [head] [head_effect]
           headed_resolves head_proceeds).
Defined.

Lemma middleware_blocks_bridge_witness :
  Forall2 (resolves_to (Options.middleware (options true))) (entries piped)
    ([head] ++ res :: [])%list
  /\ Forall2 proceeds [head] [head_effect]
  /\ never_proceeds res
  /\ exists handler,
       route_handler (recording_ReadBody bodies) (recording_act actors) no_query parse_empty
         as_is (options true) piped = Ok handler
       /\ forall req r next w,
            handler req r next w = res req r next (in_turn [head_effect] req r w).
Proof.
  split; [exact piped_resolves|]. split; [exact head_proceeds|].
  split; [exact res_never_proceeds|].
  apply (middleware_blocks_bridge (recording_ReadBody bodies) (recording_act actors)
           no_query parse_empty as_is (options true) piped [head] [head_effect] res []
           piped_resolves head_proceeds res_never_proceeds).
Defined.

(** Conversions at the edges: an error without a name or without a message,
    an object with an own [toString], and a route holding such an entry. *)
Example to_string_edge_cases :
  to_string (error "" "msg") = Ok "msg"
  /\ to_string (error "Error" "") = Ok "Error"
  /\ to_string (number (int 7)) = Ok "7"
  /\ to_string (object (pcons "toString" (str "x") pnil))
     = Throw (error "TypeError" "Cannot convert object to primitive value")
  /\ thrown (setup true (Some [])
               [route "odd" ["GET"]
                  (Some [MwVal (object (pcons "toString" (str "x") pnil))]) true])
     = Some (error "TypeError" "Cannot convert object to primitive value").
Proof. repeat split; reflexivity. Qed.
